(** * Verification of the agent framework (src/agent_framework.py)

    A shallow embedding of the message reducer [reduce_messages], of the
    agent node [SingleAgent.process], of the two continuation predicates
    and of the graph construction of [MultiAgentWorkflow], followed by the
    properties of the specification that concern them, and by further
    properties of the framework and of the helper functions of the
    example programs.

    The graph library that compiles and executes the graphs, and the
    language model, are outside the repository.  The library's [compile]
    and its run loop are described as far as the framework depends on
    them; the language model and the token generator are parameters.

    Python objects that the source mutates are kept in a store: message
    objects (whose [id] attribute [reduce_messages] assigns in place) and
    list objects (to which [SingleAgent.process] appends in place).  Lists
    hold references to message objects, as in Python. *)

From Stdlib Require Import Ascii.
From stdpp Require Import gmap strings list pretty.

Open Scope string_scope.
Open Scope list_scope.
Open Scope nat_scope.

(** ** Outcome of a Python call: a value or a raised exception, the
    exception being identified by the name of its class. *)

Inductive outcome (A : Type) : Type :=
  | Returns (a : A)
  | Raises (exc : string).
Arguments Returns {A} a.
Arguments Raises {A} exc.

Global Instance outcome_ret : MRet outcome := λ A a, Returns a.
Global Instance outcome_bind : MBind outcome := λ A B f o,
  match o with
  | Returns a => f a
  | Raises e => Raises e
  end.

(** ** Messages *)

(** The message classes imported from langchain_core. *)
Inductive MessageType : Type :=
  | SystemMessage
  | HumanMessage
  | AIMessage
  | FunctionMessage.

Global Instance MessageType_eq_dec : EqDecision MessageType.
Proof. solve_decision. Defined.

Module Message.
(** A message object: [id] is Python's [Optional[str]]. *)
Record t : Type := mk {
  type : MessageType;
  content : string;
  id : option string
}.

Definition set_id (m : t) (i : string) : t :=
  {| type := type m; content := content m; id := Some i |}.
End Message.

Global Instance Message_eq_dec : EqDecision Message.t.
Proof. solve_decision. Defined.

Global Instance Message_inhabited : Inhabited Message.t :=
  populate (Message.mk HumanMessage "" None).

(** Python truthiness of an [Optional[str]]: [None] and the empty string
    are falsy ([if not message.id]). *)
Definition truthy (i : option string) : bool :=
  match i with
  | None => false
  | Some s => negb (String.eqb s "")
  end.

(** ** The store of mutable objects *)

Definition loc : Type := nat.

(** Message objects by reference.  A list value is a [list loc]. *)
Abbreviation objects := (gmap loc Message.t).

(** [message.id] for the object behind a reference. *)
Definition id_of (h : objects) (r : loc) : option string :=
  Message.id (h !!! r).

(** The message values a list of references denotes. *)
Definition view (h : objects) (l : list loc) : list Message.t :=
  (λ r, h !!! r) <$> l.

(** ** reduce_messages *)

Section reducer.
(** [str(uuid4())]: the n-th token drawn from the generator.  The
    counter of drawn tokens is threaded through the calls. *)
Context (uuid4 : nat → string).

(** First loop:
    [for message in right: if not message.id: message.id = str(uuid4())].
    The assignment mutates the message object. *)
Fixpoint assign_ids (h : objects) (right : list loc) (k : nat)
  : objects * nat :=
  match right with
  | [] => (h, k)
  | r :: rest =>
      if truthy (id_of h r) then assign_ids h rest k
      else assign_ids (<[r := Message.set_id (h !!! r) (uuid4 k)]> h)
                      rest (S k)
  end.

(** Inner loop: [for i, existing in enumerate(merged)] stops at the first
    entry with [existing.id == message.id]. *)
Fixpoint find_index (h : objects) (i : option string) (merged : list loc)
  : option nat :=
  match merged with
  | [] => None
  | e :: es =>
      if decide (id_of h e = i) then Some 0
      else S <$> find_index h i es
  end.

(** Body of the second loop: [merged[i] = message; break], or the
    [else] branch of the [for]: [merged.append(message)]. *)
Definition merge_message (h : objects) (merged : list loc) (message : loc)
  : list loc :=
  match find_index h (id_of h message) merged with
  | Some i => <[i := message]> merged
  | None => merged ++ [message]
  end.

(** [reduce_messages(left, right)]: the message objects after the id
    assignment, the new list [merged], and the token counter. *)
Definition reduce_messages (h : objects) (left right : list loc) (k : nat)
  : objects * list loc * nat :=
  let '(h', k') := assign_ids h right k in
  (h', foldl (merge_message h') left right, k').
End reducer.

(** ** Agent configuration and state *)

Inductive AgentRole : Type :=
  | COORDINATOR
  | EXECUTOR
  | CRITIC
  | RESEARCHER
  | CUSTOM.

(** The dataclass [AgentConfig].  The tool list, the temperature and the
    custom functions, which the framework only passes on to the language
    model, are left out; the language model [llm_invoke] below takes the
    configuration as a whole. *)
Record AgentConfig : Type := {
  name : string;
  role : AgentRole;
  system_message : string;
  model : string
}.

(** Values stored in the metadata dictionary ([Dict[str, Any]]): the
    sources store integers ([max_turns]) and strings ([review_type]). *)
Inductive pyval : Type :=
  | PyInt (z : Z)
  | PyStr (s : string).

(** The dictionary [AgentState]: ["messages"] holds a reference to a list
    object, ["metadata"] a dictionary that the framework only reads. *)
Record AgentState : Type := {
  messages : loc;
  metadata : gmap string pyval
}.

(** The store: message objects, list objects, the next unused reference
    and the number of [uuid4] tokens drawn so far. *)
Record store : Type := {
  msgs : objects;
  lists : gmap loc (list loc);
  next : loc;
  drawn : nat
}.

(** The message values of [state["messages"]]. *)
Definition history (σ : store) (state : AgentState) : list Message.t :=
  view (msgs σ) (lists σ !!! messages state).

(** [len(state["messages"]) < bound]; comparing an [int] with a [str]
    raises [TypeError]. *)
Definition len_lt (n : nat) (bound : pyval) : outcome bool :=
  match bound with
  | PyInt z => Returns (bool_decide (Z.of_nat n < z)%Z)
  | PyStr _ => Raises "TypeError"
  end.

(** ** The workflow graph handed to the graph library *)

Inductive target : Type :=
  | Node (n : string)
  | END.

(** What the calls [add_node], [add_edge], [add_conditional_edges] and
    [set_entry_point] record, and the checkpointer that [compile] is
    given ([None] for a graph that is not compiled, or compiled without
    one).  A conditional edge keeps its predicate and the two targets of
    the mapping [{True: ..., False: ...}]; a checkpointer is identified
    by its connection string. *)
Record StateGraph : Type := {
  nodes : list (string * AgentConfig);
  edges : list (string * string);
  conditional_edges :
    list (string * ((store → AgentState → outcome bool) * target * target));
  entry_point : option string;
  graph_checkpointer : option string
}.

Definition empty_graph : StateGraph :=
  {| nodes := []; edges := []; conditional_edges := []; entry_point := None;
     graph_checkpointer := None |}.

Definition add_node (g : StateGraph) (n : string) (cfg : AgentConfig)
  : StateGraph :=
  {| nodes := nodes g ++ [(n, cfg)]; edges := edges g;
     conditional_edges := conditional_edges g;
     entry_point := entry_point g;
     graph_checkpointer := graph_checkpointer g |}.

Definition add_edge (g : StateGraph) (a b : string) : StateGraph :=
  {| nodes := nodes g; edges := edges g ++ [(a, b)];
     conditional_edges := conditional_edges g;
     entry_point := entry_point g;
     graph_checkpointer := graph_checkpointer g |}.

Definition add_conditional_edges (g : StateGraph) (a : string)
    (cond : store → AgentState → outcome bool) (if_true if_false : target)
  : StateGraph :=
  {| nodes := nodes g; edges := edges g;
     conditional_edges :=
       conditional_edges g ++ [(a, (cond, if_true, if_false))];
     entry_point := entry_point g;
     graph_checkpointer := graph_checkpointer g |}.

Definition set_entry_point (g : StateGraph) (n : string) : StateGraph :=
  {| nodes := nodes g; edges := edges g;
     conditional_edges := conditional_edges g;
     entry_point := Some n;
     graph_checkpointer := graph_checkpointer g |}.

(** A Python [dict] with string keys: insertion ordered, and assigning to
    a key that is present replaces the value where the key stands. *)
Fixpoint dict_set {V : Type} (d : list (string * V)) (k : string) (v : V)
  : list (string * V) :=
  match d with
  | [] => [(k, v)]
  | (k', v') :: d' =>
      if decide (k' = k) then (k, v) :: d' else (k', v') :: dict_set d' k v
  end.

Fixpoint dict_get {V : Type} (d : list (string * V)) (k : string)
  : option V :=
  match d with
  | [] => None
  | (k', v) :: d' => if decide (k' = k) then Some v else dict_get d' k
  end.

Definition keys {V : Type} (d : list (string * V)) : list string := d.*1.

(** The node that a target names, if any. *)
Definition node_of (t : target) : list string :=
  match t with
  | Node n => [n]
  | END => []
  end.

(** The names that the edges of a graph lead to: the entry point, the
    targets of the plain edges, and the nodes among the targets of the
    conditional edges. *)
Definition edge_targets (g : StateGraph) : list string :=
  option_list (entry_point g)
  ++ (edges g).*2
  ++ (conditional_edges g ≫= λ ce, node_of ce.2.1.2 ++ node_of ce.2.2).

(** The check that the graph library makes when a graph is compiled: the
    graph has an entry point, every edge starts and ends at a node, and
    every node has an edge leading to it. *)
Definition validate (g : StateGraph) : bool :=
  bool_decide (is_Some (entry_point g))
  && forallb (λ n, bool_decide (n ∈ keys (nodes g)))
             ((edges g).*1 ++ (conditional_edges g).*1 ++ edge_targets g)
  && forallb (λ n, bool_decide (n ∈ edge_targets g)) (keys (nodes g)).

(** The graph as compiled with [checkpointer]. *)
Definition compiled (g : StateGraph) (checkpointer : option string)
  : StateGraph :=
  {| nodes := nodes g; edges := edges g;
     conditional_edges := conditional_edges g;
     entry_point := entry_point g;
     graph_checkpointer := checkpointer |}.

(** [graph.compile(checkpointer=...)].  The graph library is outside the
    repository; its [compile] raises [ValueError] for a graph that does
    not pass the check above, and otherwise returns the graph, compiled
    with the checkpointer. *)
Definition compile (g : StateGraph) (checkpointer : option string)
  : outcome StateGraph :=
  if validate g then Returns (compiled g checkpointer)
  else Raises "ValueError".

(** [xs[0]] *)
Definition index0 {A : Type} (xs : list A) : outcome A :=
  match xs with
  | [] => Raises "IndexError"
  | x :: _ => Returns x
  end.


Section framework.
(** The two external collaborators: the token generator behind
    [str(uuid4())], and the language model bound to an agent
    ([self.llm.invoke(messages)]), which answers a prompt with one
    message. *)
Context (uuid4 : nat → string).
Context (llm_invoke : AgentConfig → list Message.t → Message.t).

(** *** SingleAgent *)

(** [SingleAgent.process(state)].  The prompt is a new local list; the
    response is a new message object; [state["messages"].append(response)]
    updates the list object of the caller in place and [return state]
    hands back the dictionary that came in. *)
Definition SingleAgent_process (cfg : AgentConfig) (state : AgentState)
    (σ : store) : store * AgentState :=
  let prompt :=
    Message.mk SystemMessage (system_message cfg) None
      :: view (msgs σ) (lists σ !!! messages state) in
  let response := llm_invoke cfg prompt in
  let r := next σ in
  ({| msgs := <[r := response]> (msgs σ);
      lists := <[messages state := (lists σ !!! messages state) ++ [r]]>
                 (lists σ);
      next := S r;
      drawn := drawn σ |},
   state).

(** [SingleAgent._should_continue(state)] *)
Definition SingleAgent_should_continue (σ : store) (state : AgentState)
  : outcome bool :=
  len_lt (length (lists σ !!! messages state))
         (default (PyInt 10) (metadata state !! "max_turns")).

(** [SingleAgent._build_graph()]: one node with a conditional edge onto
    itself, compiled without checkpointer.  [compile()] accepts this
    graph whatever the configuration (lemma [SingleAgent_graph_compiles]
    below). *)
Definition SingleAgent_build_graph (cfg : AgentConfig) : StateGraph :=
  let graph := add_node empty_graph "process" cfg in
  let graph :=
    add_conditional_edges graph "process" SingleAgent_should_continue
      (Node "process") END in
  let graph := set_entry_point graph "process" in
  compiled graph None.

(** *** MultiAgentWorkflow *)

(** [MultiAgentWorkflow._should_continue(state)] *)
Definition MultiAgentWorkflow_should_continue (σ : store)
    (state : AgentState) : outcome bool :=
  len_lt (length (lists σ !!! messages state))
         (default (PyInt 20) (metadata state !! "max_turns")).

(** [{cfg.name: SingleAgent(cfg) for cfg in agents}] *)
Definition agents_dict (agents : list AgentConfig)
  : list (string * AgentConfig) :=
  foldl (λ d cfg, dict_set d (name cfg) cfg) [] agents.

(** The loop of the sequential branch: the graph and [prev_node]. *)
Definition sequential_body (acc : StateGraph * option string)
    (item : string * AgentConfig) : StateGraph * option string :=
  let '(graph, prev_node) := acc in
  let graph := add_node graph item.1 item.2 in
  let graph :=
    if truthy prev_node
    then add_edge graph (default "" prev_node) item.1
    else graph in
  (graph, Some item.1).

(** The broadcast branch: [for other in others: graph.add_edge(name, other)]
    with [others = [n for n in self.agents.keys() if n != name]]. *)
Definition broadcast_edges (graph : StateGraph) (names : list string)
    (n : string) : StateGraph :=
  foldl (λ g other, add_edge g n other)
        graph (filter (λ other, other ≠ n) names).

(** [MultiAgentWorkflow._build_graph()] down to [set_entry_point]: the
    graph that is handed to [compile].  In the sequential branch the
    mapping [{True: list(self.agents.keys())[0], False: END}] is
    evaluated before [add_conditional_edges] is called, so an empty
    dictionary raises [IndexError] there; past that point [prev_node] is
    the last name. *)
Definition MultiAgentWorkflow_wiring
    (agents : list (string * AgentConfig)) (communication_pattern : string)
  : outcome StateGraph :=
  graph ←
    (if decide (communication_pattern = "sequential") then
       let '(graph, prev_node) :=
         foldl sequential_body (empty_graph, None) agents in
       first ← index0 (keys agents);
       Returns (add_conditional_edges graph (default "" prev_node)
                  MultiAgentWorkflow_should_continue (Node first) END)
     else if decide (communication_pattern = "broadcast") then
       let graph :=
         foldl (λ g item, add_node g item.1 item.2) empty_graph agents in
       Returns (foldl (λ g n, broadcast_edges g (keys agents) n)
                      graph (keys agents))
     else Returns empty_graph);
  first ← index0 (keys agents);
  Returns (set_entry_point graph first).

(** [MultiAgentWorkflow._build_graph()], whose last line is
    [return graph.compile(checkpointer=self.checkpointer)]. *)
Definition MultiAgentWorkflow_build_graph
    (agents : list (string * AgentConfig)) (communication_pattern : string)
    (checkpointer : string) : outcome StateGraph :=
  graph ← MultiAgentWorkflow_wiring agents communication_pattern;
  compile graph (Some checkpointer).

Record MultiAgentWorkflow : Type := {
  agents : list (string * AgentConfig);
  communication_pattern : string;
  checkpointer : string;
  graph : StateGraph
}.

(** [MultiAgentWorkflow.__init__(agents, communication_pattern,
    checkpoint_path)].  The checkpointer is
    [SqliteSaver.from_conn_string(checkpoint_path if checkpoint_path
    else ":memory:")]; the checkpoint store is outside the repository,
    and the checkpointer is identified by its connection string. *)
Definition MultiAgentWorkflow_init (agent_configs : list AgentConfig)
    (pattern : string) (checkpoint_path : option string)
  : outcome MultiAgentWorkflow :=
  let agents := agents_dict agent_configs in
  let checkpointer :=
    if truthy checkpoint_path then default "" checkpoint_path
    else ":memory:" in
  graph ← MultiAgentWorkflow_build_graph agents pattern checkpointer;
  Returns {| agents := agents; communication_pattern := pattern;
             checkpointer := checkpointer; graph := graph |}.

(** *** The run loop

    The graph library that executes the compiled graph is not part of
    the repository.  The definitions of this subsection, down to
    [invoke], stand for it. *)

(** Modelled from the spec: a configuration of the run loop of section
    4.5, which the graph library implements: running at a node, or
    halted.  The loop of section 4.5 runs one node at a time.  Where the
    edges out of the node that has run lead to several nodes, the graph
    library runs these together in its next step, which the loop does
    not describe: the third configuration, [Fanout], records the nodes
    that are due, and the loop stops there. *)
Inductive config : Type :=
  | Running (n : string) (σ : store) (state : AgentState)
  | Halted (σ : store) (state : AgentState)
  | Fanout (ns : list string) (σ : store) (state : AgentState).

(** Modelled from the spec: one node step of the run loop (section 4.5:
    the node's [process] is invoked and its result is folded into the
    shared state).  The channel ["messages"] is declared in [AgentState]
    with [reduce_messages] as its reducer; the node receives the
    channel's own list object, so [left] is read after [process] has
    run, and the merged list becomes the channel's new list object. *)
Definition node_step (cfg : AgentConfig) (σ : store) (state : AgentState)
  : store * AgentState :=
  let '(σ1, ret) := SingleAgent_process cfg state σ in
  let left := lists σ1 !!! messages state in
  let right := lists σ1 !!! messages ret in
  let '(h, merged, k) :=
    reduce_messages uuid4 (msgs σ1) left right (drawn σ1) in
  let l := next σ1 in
  ({| msgs := h; lists := <[l := merged]> (lists σ1);
      next := S l; drawn := k |},
   {| messages := l; metadata := metadata ret |}).

(** Modelled from the spec: the nodes that are due after node [n]
    (section 4.4): the node that the predicate of the conditional edge
    of [n] chooses, when [n] has such an edge and the predicate does not
    choose [END], and the targets of all the plain edges out of [n].
    The predicate is consulted only where the graph has a conditional
    edge. *)
Definition route (g : StateGraph) (n : string) (σ : store)
    (state : AgentState) : outcome (list string) :=
  branch ←
    match dict_get (conditional_edges g) n with
    | Some (cond, if_true, if_false) =>
        b ← cond σ state;
        Returns (node_of (if b : bool then if_true else if_false))
    | None => Returns []
    end;
  Returns (remove_dups (branch ++ (filter (λ e, e.1 = n) (edges g)).*2)).

(** Modelled from the spec: one transition of the run loop: run the
    current node, then route.  No node due ends the run. *)
Definition step (g : StateGraph) (c : config) : outcome config :=
  match c with
  | Running n σ state =>
      match dict_get (nodes g) n with
      | None => Raises "KeyError"
      | Some cfg =>
          let '(σ', state') := node_step cfg σ state in
          ns ← route g n σ' state';
          Returns (match ns with
                   | [] => Halted σ' state'
                   | [n'] => Running n' σ' state'
                   | _ => Fanout ns σ' state'
                   end)
      end
  | _ => Returns c
  end.

(** [k] transitions from [c]. *)
Fixpoint steps (k : nat) (g : StateGraph) (c : config) : outcome config :=
  match k with
  | 0 => Returns c
  | S k' => c' ← step g c; steps k' g c'
  end.

(** Modelled from the spec: the run loop until it stops.  The library
    counts its steps against the recursion limit, the step in which it
    finds no node due included, and raises [GraphRecursionError] when
    the limit is used up: a run of [k] node steps returns when
    [k < limit]. *)
Fixpoint walk (limit : nat) (g : StateGraph) (c : config)
  : outcome config :=
  match limit with
  | 0 => Raises "GraphRecursionError"
  | S limit' =>
      match c with
      | Running _ _ _ => c' ← step g c; walk limit' g c'
      | _ => Returns c
      end
  end.

(** Modelled from the spec: seeding (section 4.5).  The input state is
    written to the channels, its messages through the reducer onto the
    channel's initial empty list; the run starts at the entry point. *)
Definition seed (g : StateGraph) (input : AgentState) (σ : store)
  : outcome config :=
  let '(h, merged, k) :=
    reduce_messages uuid4 (msgs σ) [] (lists σ !!! messages input)
                    (drawn σ) in
  let l := next σ in
  let σ0 := {| msgs := h; lists := <[l := merged]> (lists σ);
               next := S l; drawn := k |} in
  let state0 := {| messages := l; metadata := metadata input |} in
  match entry_point g with
  | None => Raises "ValueError"
  | Some n => Returns (Running n σ0 state0)
  end.

(** The recursion limit of a call that sets none. *)
Definition default_recursion_limit : nat := 25.

(** Modelled from the spec: [graph.invoke(input)], a call that names no
    thread, under the recursion limit [limit].  The result is the
    configuration in which the run stops: [Halted σ state] hands [state]
    back to the caller.  A graph that was compiled with a checkpointer
    needs a thread to file its checkpoints under: the library refuses
    the call with [ValueError] before any node runs. *)
Definition invoke (limit : nat) (g : StateGraph) (input : AgentState)
    (σ : store) : outcome config :=
  match graph_checkpointer g with
  | Some _ => Raises "ValueError"
  | None => c ← seed g input σ; walk limit g c
  end.

(** The initial state that [MultiAgentWorkflow.run] builds:
    [AgentState(messages=[HumanMessage(content=initial_message)],
    metadata=metadata or {})]. *)
Definition initial_state (initial_message : string)
    (meta : option (gmap string pyval)) (σ : store)
  : store * AgentState :=
  let r := next σ in
  let l := S r in
  ({| msgs := <[r := Message.mk HumanMessage initial_message None]> (msgs σ);
      lists := <[l := [r]]> (lists σ);
      next := S l;
      drawn := drawn σ |},
   {| messages := l; metadata := default ∅ meta |}).

(** [MultiAgentWorkflow.run(initial_message, metadata)]:
    [return self.graph.invoke(initial_state)], a call that names no
    thread and sets no recursion limit. *)
Definition MultiAgentWorkflow_run (w : MultiAgentWorkflow)
    (initial_message : string) (meta : option (gmap string pyval))
    (σ : store) : outcome config :=
  let '(σ1, input) := initial_state initial_message meta σ in
  invoke default_recursion_limit (graph w) input σ1.
End framework.

(** ** The class [SingleAgent] and the helper functions *)

(** An instance of [SingleAgent]: [self.config] and [self.graph]. *)
Record SingleAgent : Type := {
  agent_config : AgentConfig;
  agent_graph : StateGraph
}.

(** [SingleAgent.__init__(config)] *)
Definition SingleAgent_init (cfg : AgentConfig) : SingleAgent :=
  {| agent_config := cfg; agent_graph := SingleAgent_build_graph cfg |}.

(** [create_single_agent(system_message, tools, model)]; the tools are
    passed on to the language model. *)
Definition create_single_agent (system_message model : string)
  : SingleAgent :=
  SingleAgent_init
    {| name := "main_agent"; role := EXECUTOR;
       system_message := system_message; model := model |}.

(** [create_multi_agent_workflow(agent_configs, communication_pattern,
    checkpoint_path)] *)
Definition create_multi_agent_workflow (agent_configs : list AgentConfig)
    (communication_pattern : string) (checkpoint_path : option string)
  : outcome MultiAgentWorkflow :=
  MultiAgentWorkflow_init agent_configs communication_pattern
                          checkpoint_path.

(** ** The example programs *)

(** A raised exception object: its class, the classes it inherits from,
    and [str(e)]. *)
Record exception : Type := {
  exc_class : string;
  exc_bases : list string;
  exc_str : string
}.

(** [isinstance(e, C)], which a clause [except C] tests. *)
Definition isinstance (e : exception) (C : string) : bool :=
  bool_decide (C = exc_class e ∨ C ∈ exc_bases e).

(** *** code_review.py *)

(** The classes of syntax-tree nodes that [CodeAnalyzer] tells apart: it
    defines [visit_FunctionDef], [visit_ClassDef], [visit_If],
    [visit_For] and [visit_While]; a node of any other class ([Module],
    [AsyncFunctionDef], [IfExp], [Name], ...) falls to [generic_visit]. *)
Inductive node_class : Type :=
  | FunctionDef
  | ClassDef
  | If
  | For
  | While
  | Other.

(** A syntax tree: the class of a node and its child nodes, in the order
    in which [generic_visit] goes through them. *)
#[warnings="-register-all"]
Inductive AST : Type :=
  | ast_node (class : node_class) (children : list AST).

(** The dictionary [self.stats], whose four keys are fixed. *)
Record Stats : Type := {
  functions : nat;
  classes : nat;
  lines : nat;
  complexity : nat
}.

(** A [CodeAnalyzer] object. *)
Record CodeAnalyzer : Type := {
  stats : Stats;
  current_complexity : nat
}.

(** [CodeAnalyzer.__init__()] *)
Definition CodeAnalyzer_init : CodeAnalyzer :=
  {| stats := {| functions := 0; classes := 0; lines := 0; complexity := 0 |};
     current_complexity := 0 |}.

(** [NodeVisitor.generic_visit(node)]: every child is visited in turn. *)
Definition generic_visit (visit : AST → CodeAnalyzer → CodeAnalyzer)
    (children : list AST) (self : CodeAnalyzer) : CodeAnalyzer :=
  foldl (λ self child, visit child self) self children.

(** [visit_FunctionDef]; [visit_children] is [self.generic_visit(node)]. *)
Definition visit_FunctionDef (visit_children : CodeAnalyzer → CodeAnalyzer)
    (self : CodeAnalyzer) : CodeAnalyzer :=
  let self :=
    {| stats := {| functions := functions (stats self) + 1;
                   classes := classes (stats self);
                   lines := lines (stats self);
                   complexity := complexity (stats self) |};
       current_complexity := 1 |} in
  let self := visit_children self in
  {| stats := {| functions := functions (stats self);
                 classes := classes (stats self);
                 lines := lines (stats self);
                 complexity :=
                   complexity (stats self) + current_complexity self |};
     current_complexity := current_complexity self |}.

(** [visit_ClassDef] *)
Definition visit_ClassDef (visit_children : CodeAnalyzer → CodeAnalyzer)
    (self : CodeAnalyzer) : CodeAnalyzer :=
  visit_children
    {| stats := {| functions := functions (stats self);
                   classes := classes (stats self) + 1;
                   lines := lines (stats self);
                   complexity := complexity (stats self) |};
       current_complexity := current_complexity self |}.

(** [visit_If], [visit_For] and [visit_While] have the same body. *)
Definition visit_branch (visit_children : CodeAnalyzer → CodeAnalyzer)
    (self : CodeAnalyzer) : CodeAnalyzer :=
  visit_children
    {| stats := stats self;
       current_complexity := current_complexity self + 1 |}.

(** [NodeVisitor.visit(node)]: the method [visit_<class>] when the
    analyzer defines it, [generic_visit] otherwise. *)
Fixpoint visit (node : AST) (self : CodeAnalyzer) : CodeAnalyzer :=
  match node with
  | ast_node class children =>
      match class with
      | FunctionDef => visit_FunctionDef (generic_visit visit children) self
      | ClassDef => visit_ClassDef (generic_visit visit children) self
      | If | For | While => visit_branch (generic_visit visit children) self
      | Other => generic_visit visit children self
      end
  end.

(** What [analyze_code] returns: the dictionary of the analyzer, or
    [{'error': message}]. *)
Inductive report : Type :=
  | Report_stats (s : Stats)
  | Report_error (message : string).

(** [analyze_code(code)]; [ast_parse] is [ast.parse], which returns a
    tree or raises. *)
Definition analyze_code (ast_parse : string → AST + exception)
    (code : string) : outcome report :=
  match ast_parse code with
  | inl tree =>
      let analyzer := CodeAnalyzer_init in
      let analyzer := visit tree analyzer in
      Returns (Report_stats (stats analyzer))
  | inr e =>
      if isinstance e "SyntaxError"
      then Returns (Report_error ("Syntax error in code: " +:+ exc_str e))
      else Raises (exc_class e)
  end.

(** *** creative_writing.py *)

(** The dictionary [prompts] of [create_writing_prompt]. *)
Definition prompts : list (string * string) :=
  [("fantasy", "In a world where dreams become physical objects, a young collector discovers a nightmare that shouldn't exist.");
   ("scifi", "A deep space maintenance worker receives an SOS signal from a ship that disappeared 50 years ago.");
   ("mystery", "A detective investigates a series of impossible thefts where objects vanish from sealed rooms, only to appear in other sealed rooms.");
   ("romance", "Two rival food critics are forced to collaborate on a series of restaurant reviews.");
   ("general", "A mysterious package arrives at someone's doorstep, containing an object from their future.")].

(** [d[k]] *)
Definition getitem {V : Type} (d : list (string * V)) (k : string)
  : outcome V :=
  match dict_get d k with
  | Some v => Returns v
  | None => Raises "KeyError"
  end.

(** [create_writing_prompt(genre)], [genre] being [None] or a string.
    The default [prompts["general"]] is evaluated before [get] is
    called. *)
Definition create_writing_prompt (genre : option string) : outcome string :=
  fallback ← getitem prompts "general";
  Returns (default fallback (genre ≫= dict_get prompts)).

(** *** research_assistant.py *)

(** [KeyError(key)] for a key that is a plain word; [str] of it is the
    key between single quotes. *)
Definition KeyError (key : string) : exception :=
  {| exc_class := "KeyError";
     exc_bases := ["LookupError"; "Exception"; "BaseException"; "object"];
     exc_str := "'" +:+ key +:+ "'" |}.

(** [r[key]] on one result of the search. *)
Definition result_item (r : list (string * string)) (key : string)
  : string + exception :=
  match dict_get r key with
  | Some v => inl v
  | None => inr (KeyError key)
  end.

Definition newline : string := String "010"%char "".

(** [f"{r['title']}: {r['body']}\nURL: {r['link']}"] *)
Definition format_result (r : list (string * string)) : string + exception :=
  match result_item r "title" with
  | inr e => inr e
  | inl title =>
      match result_item r "body" with
      | inr e => inr e
      | inl body =>
          match result_item r "link" with
          | inr e => inr e
          | inl link =>
              inl (title +:+ ": " +:+ body +:+ newline +:+ "URL: " +:+ link)
          end
      end
  end.

(** The list comprehension [[f"..." for r in results]]. *)
Fixpoint format_results (results : list (list (string * string)))
  : list string + exception :=
  match results with
  | [] => inl []
  | r :: rest =>
      match format_result r with
      | inr e => inr e
      | inl line =>
          match format_results rest with
          | inr e => inr e
          | inl formatted => inl (line :: formatted)
          end
      end
  end.

(** [web_search(query, max_results)].  [ddgs_text query max_results] is
    [list(ddgs.text(query, max_results=max_results))] inside
    [with DDGS() as ddgs], a list of dictionaries or the exception of
    the search library; the context manager lets exceptions through. *)
Definition web_search
    (ddgs_text : string → Z → list (list (string * string)) + exception)
    (query : string) (max_results : Z) : outcome (list string) :=
  let attempt :=
    match ddgs_text query max_results with
    | inl results => format_results results
    | inr e => inr e
    end in
  match attempt with
  | inl formatted => Returns formatted
  | inr e =>
      if isinstance e "Exception"
      then Returns ["Error performing search: " +:+ exc_str e]
      else Raises (exc_class e)
  end.

(** A Python [str] is a sequence of characters (code points).  It is
    represented by its UTF-8 encoding: each character is one byte that
    is no continuation byte, followed by the continuation bytes
    (10xxxxxx) that belong to it. *)
Definition is_continuation (b : ascii) : bool :=
  match b with
  | Ascii _ _ _ _ _ _ b6 b7 => b7 && negb b6
  end.

(** [len(s)]: the number of characters of [s]. *)
Fixpoint str_len (s : string) : nat :=
  match s with
  | EmptyString => 0
  | String b s' => (if is_continuation b then 0 else 1) + str_len s'
  end.

(** [s[:n]]: the first [n] characters of [s]. *)
Fixpoint str_take (n : nat) (s : string) : string :=
  match s with
  | EmptyString => EmptyString
  | String b s' =>
      if is_continuation b then String b (str_take n s')
      else match n with
           | 0 => EmptyString
           | S n' => String b (str_take n' s')
           end
  end.

(** What [requests.get] returns, as far as [scrape_webpage] reads it. *)
Record response : Type := {
  status_code : Z;
  text : string
}.

(** [scrape_webpage(url)].  [requests_get url] is
    [requests.get(url, headers=headers, timeout=10)], and
    [paragraphs html] the texts [p.get_text()] of the elements that
    [BeautifulSoup(html, 'html.parser').find_all('p')] finds. *)
Definition scrape_webpage
    (requests_get : string → response + exception)
    (paragraphs : string → list string + exception)
    (url : string) : outcome string :=
  let attempt :=
    match requests_get url with
    | inr e => inr e
    | inl response =>
        if decide (status_code response = 200%Z) then
          match paragraphs (text response) with
          | inr e => inr e
          | inl ps =>
              let text := String.concat " " ps in
              inl (if decide (1000 < str_len text)
                   then str_take 1000 text +:+ "..."
                   else text)
          end
        else inl ("Failed to retrieve webpage: Status code "
                  +:+ pretty (status_code response))
    end in
  match attempt with
  | inl s => Returns s
  | inr e =>
      if isinstance e "Exception"
      then Returns ("Error scraping webpage: " +:+ exc_str e)
      else Raises (exc_class e)
  end.

(** ** Concrete collaborators used in the examples *)

(** A token generator with pairwise distinct, non-empty tokens. *)
Fixpoint token (n : nat) : string :=
  match n with
  | 0 => "u"
  | S n' => "u" +:+ token n'
  end.

(** Every token starts with the character "u": an id that does not is no
    token. *)
Definition not_a_token (i : option string) : bool :=
  match i with
  | Some (String "u"%char _) => false
  | _ => true
  end.

(** A language model that answers with the agent's name and sets no id. *)
Definition echo (cfg : AgentConfig) (prompt : list Message.t) : Message.t :=
  Message.mk AIMessage (name cfg) None.

(** A language model whose answer carries the id of the last message of
    its prompt: an update of that message. *)
Definition rewrite_last (cfg : AgentConfig) (prompt : list Message.t)
  : Message.t :=
  Message.mk AIMessage (name cfg)
             (Message.id (default inhabitant (last prompt))).

(** Message objects for the examples: two carry the id "a", three the id
    "b", one the id "c", and one has no id yet. *)
Definition demo_objects : objects :=
  list_to_map
    [ (0, Message.mk HumanMessage "hello" (Some "a"));
      (1, Message.mk AIMessage "first" (Some "b"));
      (2, Message.mk AIMessage "second" (Some "b"));
      (3, Message.mk AIMessage "draft" None);
      (4, Message.mk HumanMessage "hello again" (Some "a"));
      (5, Message.mk AIMessage "other" (Some "c"));
      (6, Message.mk AIMessage "third" (Some "b")) ].

Definition agent (n : string) : AgentConfig :=
  {| name := n; role := CUSTOM; system_message := "You are " +:+ n;
     model := "gpt-3.5-turbo" |}.

(** A caller's state: the list object 10 holds the message "hello". *)
Definition caller_store : store :=
  {| msgs := demo_objects; lists := {[ 10 := [0] ]}; next := 11; drawn := 0 |}.

Definition caller_state : AgentState := {| messages := 10; metadata := ∅ |}.

(** A state whose last message reads "TASK COMPLETE". *)
Definition completed_store : store :=
  {| msgs := list_to_map
               [ (0, Message.mk HumanMessage "start" (Some "a"));
                 (1, Message.mk AIMessage "TASK COMPLETE" (Some "b")) ];
     lists := {[ 2 := [0; 1] ]}; next := 3; drawn := 0 |}.

Definition completed_state : AgentState :=
  {| messages := 2; metadata := {[ "max_turns" := PyInt 10 ]} |}.

Definition empty_store : store :=
  {| msgs := ∅; lists := ∅; next := 0; drawn := 0 |}.

Definition max_turns (n : Z) : option (gmap string pyval) :=
  Some {[ "max_turns" := PyInt n ]}.


(** ** Definitions used to state the properties *)

(** The ids of the entries of a list. *)
Definition ids (h : objects) (l : list loc) : list (option string) :=
  id_of h <$> l.

(** The value the specification gives an existing entry [e] after a merge:
    the last incoming message that carries the id of [e], or [e] itself
    when no incoming message does. *)
Definition replacement (h : objects) (incoming : list loc) (e : loc) : loc :=
  foldl (λ acc m, if decide (id_of h m = id_of h e) then m else acc)
        e incoming.

(** The merge in the words of section 4.1 of the specification (not
    taken from the code, with which it is compared): the existing entries
    in their order, each replaced in place when an incoming id matches,
    followed by the incoming messages whose id matches no existing entry,
    in incoming order. *)
Definition merge_spec (h : objects) (existing incoming : list loc)
  : list loc :=
  (replacement h incoming <$> existing)
    ++ filter (λ m, id_of h m ∉ ids h existing) incoming.

(** The last message of a batch that carries the id [i]. *)
Definition last_with_id (h : objects) (i : option string) (batch : list loc)
  : option loc :=
  last (filter (λ m, id_of h m = i) batch).

(** The edges that the loop of the sequential branch adds, [prev] being
    the value of [prev_node] when the loop is entered. *)
Fixpoint chain (prev : option string) (items : list (string * AgentConfig))
  : list (string * string) :=
  match items with
  | [] => []
  | item :: rest =>
      (if truthy prev then [(default "" prev, item.1)] else [])
        ++ chain (Some item.1) rest
  end.

(** The graph that the sequential branch hands to [compile] for the
    agents [(n0, c0) :: rest]. *)
Definition sequential_wiring (n0 : string) (c0 : AgentConfig)
    (rest : list (string * AgentConfig)) : StateGraph :=
  {| nodes := (n0, c0) :: rest;
     edges := chain None ((n0, c0) :: rest);
     conditional_edges :=
       [(default n0 (last (keys rest)),
         (MultiAgentWorkflow_should_continue, Node n0, END))];
     entry_point := Some n0;
     graph_checkpointer := None |}.

(** The graph that the broadcast branch hands to [compile]. *)
Definition broadcast_wiring (n0 : string) (c0 : AgentConfig)
    (rest : list (string * AgentConfig)) : StateGraph :=
  let agents := (n0, c0) :: rest in
  {| nodes := agents;
     edges := keys agents ≫= λ a,
                (λ o, (a, o)) <$> filter (λ other, other ≠ a) (keys agents);
     conditional_edges := [];
     entry_point := Some n0;
     graph_checkpointer := None |}.

(** The shared state of a configuration of the run loop. *)
Definition config_store (c : config) : store :=
  match c with
  | Running _ σ _ => σ
  | Halted σ _ => σ
  | Fanout _ σ _ => σ
  end.

Definition config_state (c : config) : AgentState :=
  match c with
  | Running _ _ state => state
  | Halted _ state => state
  | Fanout _ _ state => state
  end.

Definition config_history (c : config) : list Message.t :=
  history (config_store c) (config_state c).

(** The configuration in which the graph of a workflow starts on the
    initial state that [MultiAgentWorkflow.run(initial_message,
    metadata)] builds, once the call is given a thread that has no
    checkpoint yet. *)
Definition run_seed (uuid4 : nat → string) (w : MultiAgentWorkflow)
    (initial_message : string) (meta : option (gmap string pyval))
    (σ : store) : outcome config :=
  let '(σ1, input) := initial_state initial_message meta σ in
  seed uuid4 (graph w) input σ1.

(** A language model whose responses never carry an id that is already
    in use: a response has no id, or an id that no message of its prompt
    carries and that is no token of the generator. *)
Definition llm_ids_fresh (uuid4 : nat → string)
    (llm_invoke : AgentConfig → list Message.t → Message.t) : Prop :=
  ∀ cfg prompt,
    truthy (Message.id (llm_invoke cfg prompt)) = false
    ∨ ((Message.id (llm_invoke cfg prompt) ∉ Message.id <$> prompt)
       ∧ (∀ j, Message.id (llm_invoke cfg prompt) ≠ Some (uuid4 j))).

(** The nodes of [seg] are wired one after the other in [g], each with
    the next one as its only successor, and the last of them carries the
    conditional edge back to [first] and no other edge. *)
Fixpoint follows (g : StateGraph) (first : string)
    (seg : list (string * AgentConfig)) : Prop :=
  match seg with
  | [] => True
  | (n, c) :: rest =>
      dict_get (nodes g) n = Some c
      ∧ match rest with
        | [] =>
            dict_get (conditional_edges g) n
            = Some (MultiAgentWorkflow_should_continue, Node first, END)
            ∧ filter (λ e, e.1 = n) (edges g) = []
        | (n', _) :: _ =>
            dict_get (conditional_edges g) n = None
            ∧ filter (λ e, e.1 = n) (edges g) = [(n, n')]
        end
      ∧ follows g first rest
  end.

(** Freshness of the token generator with respect to the messages in
    [scope]: no token that is still to be drawn (the [k]-th or a later
    one) is the id of one of them. *)
Definition fresh_for (uuid4 : nat → string) (h : objects) (k : nat)
    (scope : list loc) : Prop :=
  ∀ j, k ≤ j → Some (uuid4 j) ∉ ids h scope.

(** The invariant of the history of a shared state: pairwise distinct
    ids, every message carrying one; references that are in use; and no
    token still to be drawn among the ids. *)
Definition history_ok (uuid4 : nat → string) (σ : store)
    (state : AgentState) : Prop :=
  let L := lists σ !!! messages state in
  NoDup (ids (msgs σ) L)
  ∧ Forall (λ r, truthy (id_of (msgs σ) r) = true) L
  ∧ Forall (λ r, r < next σ) L
  ∧ fresh_for uuid4 (msgs σ) (drawn σ) L.

(** [reduce_messages] as a Python call: its body has no [raise] and no
    operation that can fail on lists of messages. *)
Definition call_reduce_messages (uuid4 : nat → string) (h : objects)
    (left right : list loc) (k : nat) : outcome (objects * list loc * nat) :=
  Returns (reduce_messages uuid4 h left right k).

(** The value of a call that returns, [d] otherwise. *)
Definition returned {A : Type} (d : A) (o : outcome A) : A :=
  match o with
  | Returns a => a
  | Raises _ => d
  end.

(** The sequential workflow of A, B and C, the configuration in which its
    run on "start" with [max_turns = 4] starts, and the configuration two
    transitions later. *)
Definition abc_workflow : MultiAgentWorkflow :=
  returned {| agents := []; communication_pattern := ""; checkpointer := "";
              graph := empty_graph |}
           (MultiAgentWorkflow_init (agent <$> ["A"; "B"; "C"]) "sequential"
                                    None).

Definition abc_seeded : config :=
  returned (Halted empty_store {| messages := 0; metadata := ∅ |})
           (run_seed token abc_workflow "start" (max_turns 4) empty_store).

Definition abc_after_two : config :=
  returned abc_seeded (steps token echo 2 (graph abc_workflow) abc_seeded).

(** What is observed of a configuration: the node about to run (none
    when the loop has stopped), and the contents and the ids of the
    history. *)
Definition observe (o : outcome config)
  : outcome (option string * list string * list (option string)) :=
  c ← o;
  Returns (match c with Running n _ _ => Some n | _ => None end,
           Message.content <$> config_history c,
           Message.id <$> config_history c).

(** The contents of the history with which a run has halted; none when
    it has not halted. *)
Definition halted_with (o : outcome config) : option (list string) :=
  match o with
  | Returns (Halted σ state) => Some (Message.content <$> history σ state)
  | _ => None
  end.

(** The workflow of the agents named [names] under the topology
    [pattern], seeded with "start", after [k] transitions. *)
Definition demo_run (llm_invoke : AgentConfig → list Message.t → Message.t)
    (names : list string) (pattern : string) (n : Z) (k : nat)
  : outcome config :=
  w ← MultiAgentWorkflow_init (agent <$> names) pattern None;
  c0 ← run_seed token w "start" (max_turns n) empty_store;
  steps token llm_invoke k (graph w) c0.

(** *** Counting the nodes of a syntax tree *)

Definition is_function (c : node_class) : bool :=
  match c with FunctionDef => true | _ => false end.

Definition is_class (c : node_class) : bool :=
  match c with ClassDef => true | _ => false end.

Definition is_branch (c : node_class) : bool :=
  match c with If | For | While => true | _ => false end.

(** The number of nodes of the tree whose class satisfies [p]. *)
Fixpoint count_nodes (p : node_class → bool) (t : AST) : nat :=
  match t with
  | ast_node c cs => (if p c then 1 else 0) + sum_list (count_nodes p <$> cs)
  end.

(** One plus the number of branching nodes below it, summed over the
    function definitions of the tree. *)
Fixpoint function_weight (t : AST) : nat :=
  match t with
  | ast_node c cs =>
      (if is_function c then 1 + sum_list (count_nodes is_branch <$> cs)
       else 0)
      + sum_list (function_weight <$> cs)
  end.

(** No function definition stands inside another one. *)
Fixpoint flat (t : AST) : bool :=
  match t with
  | ast_node c cs =>
      (if is_function c
       then forallb (λ child, bool_decide (count_nodes is_function child = 0)) cs
       else true)
      && forallb flat cs
  end.

(** What a visit does to the counters, with the bounds that hold for any
    tree. *)
Definition visit_summary (t : AST) (a a' : CodeAnalyzer) : Prop :=
  functions (stats a') = functions (stats a) + count_nodes is_function t
  ∧ classes (stats a') = classes (stats a) + count_nodes is_class t
  ∧ lines (stats a') = lines (stats a)
  ∧ complexity (stats a) + count_nodes is_function t ≤ complexity (stats a')
  ∧ complexity (stats a') ≤ complexity (stats a) + function_weight t
  ∧ current_complexity a'
    ≤ max 1 (current_complexity a) + count_nodes is_branch t
  ∧ (1 ≤ current_complexity a → 1 ≤ current_complexity a').

(** A search result that has the three keys [web_search] reads. *)
Definition complete (r : list (string * string)) : bool :=
  forallb (λ key, bool_decide (is_Some (dict_get r key)))
          ["title"; "body"; "link"].

(** * Properties *)

(** ** Lists *)

Lemma filter_all {A : Type} (P : A → Prop) `{!∀ x, Decision (P x)}
    (l : list A) :
  Forall P l → filter P l = l.
Proof.
  induction 1 as [|x l Hx _ IH]; [done|].
  by rewrite filter_cons_True, IH.
Qed.

(** ** The second loop of [reduce_messages] *)

Section merge_loop.
Context (h : objects).

Local Abbreviation merge := (foldl (merge_message h)).
Local Abbreviation others e := (filter (λ m, id_of h m ≠ id_of h e)).

Lemma find_index_None i l :
  find_index h i l = None ↔ i ∉ ids h l.
Proof.
  induction l as [|e l IH]; simpl.
  - split; [intros _; apply not_elem_of_nil | done].
  - case_decide as He.
    + split; [done | intros Hn; exfalso; apply Hn; subst; left].
    + rewrite fmap_None, IH, not_elem_of_cons. split; [by split | by intros [_ ?]].
Qed.

Lemma merge_message_head_match e l m :
  id_of h e = id_of h m → merge_message h (e :: l) m = m :: l.
Proof.
  intros He. unfold merge_message. simpl. by rewrite decide_True.
Qed.

Lemma merge_message_head_other e l m :
  id_of h e ≠ id_of h m →
  merge_message h (e :: l) m = e :: merge_message h l m.
Proof.
  intros He. unfold merge_message. simpl. rewrite decide_False by done.
  by destruct (find_index h (id_of h m) l).
Qed.

Lemma replacement_cons_match e m l :
  id_of h m = id_of h e → replacement h (m :: l) e = replacement h l m.
Proof.
  intros Hm. unfold replacement. simpl. rewrite decide_True by done.
  by rewrite Hm.
Qed.

Lemma replacement_cons_other e m l :
  id_of h m ≠ id_of h e → replacement h (m :: l) e = replacement h l e.
Proof.
  intros Hm. unfold replacement. simpl. by rewrite decide_False.
Qed.

Lemma replacement_id l e : id_of h (replacement h l e) = id_of h e.
Proof.
  revert e. induction l as [|m l IH]; intros e; [done|].
  destruct (decide (id_of h m = id_of h e)) as [Hm|Hm].
  - rewrite replacement_cons_match by done. by rewrite IH.
  - by rewrite replacement_cons_other.
Qed.

(** The head of [merged] is replaced by the incoming messages that carry
    its id; all other incoming messages only ever see the tail. *)
Lemma merge_cons e l right :
  merge (e :: l) right = replacement h right e :: merge l (others e right).
Proof.
  revert e l. induction right as [|m right IH]; intros e l; [done|].
  simpl. destruct (decide (id_of h m = id_of h e)) as [Hm|Hm].
  - rewrite merge_message_head_match by done.
    rewrite IH, replacement_cons_match by done.
    rewrite filter_cons_False by naive_solver. by rewrite Hm.
  - rewrite merge_message_head_other by done.
    rewrite IH, replacement_cons_other by done.
    by rewrite filter_cons_True.
Qed.

Lemma filter_same_id (P : loc → Prop) `{!∀ m, Decision (P m)} i
    (l : list loc) :
  (∀ m, id_of h m = i → P m) →
  filter (λ m, id_of h m = i) (filter P l)
  = filter (λ m, id_of h m = i) l.
Proof.
  intros HP. induction l as [|m l IH]; [done|].
  destruct (decide (P m)) as [Hm|Hm].
  - rewrite (filter_cons_True P) by done.
    destruct (decide (id_of h m = i)).
    + rewrite !(filter_cons_True (λ m, id_of h m = i)) by done.
      by rewrite IH.
    + by rewrite !(filter_cons_False (λ m, id_of h m = i)) by done.
  - rewrite (filter_cons_False P) by done.
    rewrite (filter_cons_False (λ m, id_of h m = i)); [done|].
    intros Hi. by apply Hm, HP.
Qed.

Lemma replacement_last l e :
  replacement h l e = default e (last_with_id h (id_of h e) l).
Proof.
  unfold last_with_id. revert e.
  induction l as [|m l IH]; intros e; [done|].
  destruct (decide (id_of h m = id_of h e)) as [Hm|Hm].
  - rewrite replacement_cons_match, IH by done.
    rewrite filter_cons_True by done. rewrite last_cons, Hm.
    by destruct (last _).
  - rewrite replacement_cons_other, IH by done.
    by rewrite filter_cons_False.
Qed.

Lemma replacement_filter (P : loc → Prop) `{!∀ m, Decision (P m)}
    (l : list loc) e :
  (∀ m, id_of h m = id_of h e → P m) →
  replacement h (filter P l) e = replacement h l e.
Proof.
  intros HP. rewrite !replacement_last. unfold last_with_id.
  by rewrite filter_same_id.
Qed.

Lemma replacement_no_match l e :
  id_of h e ∉ ids h l → replacement h l e = e.
Proof.
  induction l as [|m l IH]; [done|]. unfold ids. rewrite fmap_cons.
  intros [Hm Hl]%not_elem_of_cons.
  rewrite replacement_cons_other by done. by apply IH.
Qed.

(** Existing entries are replaced in place; the incoming messages whose
    id is not among the existing ones are merged among themselves. *)
Lemma merge_decompose left right :
  NoDup (ids h left) →
  merge left right
  = (replacement h right <$> left)
      ++ merge [] (filter (λ m, id_of h m ∉ ids h left) right).
Proof.
  revert right. induction left as [|e l IH]; intros right Hnd.
  - simpl. f_equal. symmetry. apply filter_all.
    apply Forall_forall. intros; apply not_elem_of_nil.
  - unfold ids in Hnd. rewrite fmap_cons in Hnd.
    apply NoDup_cons in Hnd as [He Hl].
    rewrite merge_cons, IH by done. rewrite fmap_cons. simpl. f_equal.
    f_equal.
    + apply list_fmap_ext. intros _ e' He'%list_elem_of_lookup_2.
      apply replacement_filter. intros m Hm Hme. apply He.
      rewrite <- Hme, Hm. by apply list_elem_of_fmap_2.
    + f_equal. rewrite list_filter_filter. apply list_filter_iff.
      intros m. rewrite not_elem_of_cons. by split; intros [??].
Qed.

(** A batch of pairwise distinct ids merged onto the empty list is the
    batch. *)
Lemma merge_nil_NoDup l : NoDup (ids h l) → merge [] l = l.
Proof.
  induction l as [|m l IH]; [done|]. unfold ids. rewrite fmap_cons.
  intros [Hm Hl]%NoDup_cons. simpl.
  change (merge_message h [] m) with [m].
  rewrite merge_cons, replacement_no_match by done. f_equal.
  rewrite filter_all; [by apply IH|].
  apply Forall_forall. intros m' Hm' Heq. apply Hm. rewrite <- Heq.
  by apply list_elem_of_fmap_2.
Qed.

(** With pairwise distinct ids among the existing entries and among the
    new incoming messages, the loop computes the merge of the
    specification. *)
Lemma merge_is_merge_spec left right :
  NoDup (ids h left) →
  NoDup (ids h (filter (λ m, id_of h m ∉ ids h left) right)) →
  merge left right = merge_spec h left right.
Proof.
  intros Hl Hr. rewrite merge_decompose by done. unfold merge_spec.
  by rewrite merge_nil_NoDup.
Qed.

Lemma last_with_id_cons_other i m l :
  id_of h m ≠ i → last_with_id h i (m :: l) = last_with_id h i l.
Proof. intros Hm. unfold last_with_id. by rewrite filter_cons_False. Qed.

Lemma last_with_id_filter (P : loc → Prop) `{!∀ m, Decision (P m)} i
    (l : list loc) :
  (∀ m, id_of h m = i → P m) →
  last_with_id h i (filter P l) = last_with_id h i l.
Proof. intros HP. unfold last_with_id. by rewrite filter_same_id. Qed.

Lemma last_with_id_Some i l m :
  last_with_id h i l = Some m → m ∈ l ∧ id_of h m = i.
Proof.
  unfold last_with_id. intros Hm%last_Some_elem_of.
  apply list_elem_of_filter in Hm. tauto.
Qed.

Lemma last_with_id_is_Some i l :
  i ∈ ids h l → is_Some (last_with_id h i l).
Proof.
  intros (m & -> & Hm)%list_elem_of_fmap. unfold last_with_id.
  destruct (last _) as [x|] eqn:Hlast; [by eexists|].
  apply last_None in Hlast.
  assert (m ∈ filter (λ m0, id_of h m0 = id_of h m) l) as Hin
    by by apply list_elem_of_filter.
  rewrite Hlast in Hin. by apply elem_of_nil in Hin.
Qed.

(** Merging a batch onto the empty list: one entry per id of the batch,
    holding the last message of the batch with that id. *)
Lemma merge_nil_spec l :
  NoDup (ids h (merge [] l))
  ∧ (∀ m, m ∈ merge [] l → m ∈ l)
  ∧ (∀ i, i ∈ ids h l →
       ∃ m, m ∈ merge [] l ∧ last_with_id h i l = Some m).
Proof.
  remember (length l) as n eqn:Hn.
  assert (length l ≤ n) as Hlen by lia. clear Hn.
  revert l Hlen. induction n as [|n IH]; intros l Hlen.
  { destruct l; [|simpl in Hlen; lia]. simpl.
    split_and!; [constructor | done | by intros i ?%elem_of_nil]. }
  destruct l as [|m l].
  { simpl. split_and!; [constructor | done | by intros i ?%elem_of_nil]. }
  simpl in Hlen. simpl. change (merge_message h [] m) with [m].
  rewrite merge_cons.
  destruct (IH (others m l)) as (Hnd & Hsub & Hlast).
  { pose proof (length_filter (λ m0, id_of h m0 ≠ id_of h m) l). lia. }
  assert (replacement h l m ∈ m :: l) as Hrep.
  { rewrite replacement_last.
    destruct (last_with_id h (id_of h m) l) as [x|] eqn:Hx; simpl.
    - right. by apply last_with_id_Some in Hx as [? _].
    - left. }
  split_and!.
  - unfold ids. rewrite fmap_cons. apply NoDup_cons. split; [|done].
    rewrite replacement_id.
    intros (x & Hx & Hin)%list_elem_of_fmap.
    apply Hsub, list_elem_of_filter in Hin as [Hne _]. by apply Hne.
  - intros x [->|Hx]%elem_of_cons; [done|].
    right. apply Hsub, list_elem_of_filter in Hx. tauto.
  - intros i Hi. destruct (decide (id_of h m = i)) as [<-|Hne].
    + exists (replacement h l m). split; [left|].
      rewrite replacement_last. unfold last_with_id.
      rewrite filter_cons_True by done. rewrite last_cons.
      by destruct (last _).
    + apply elem_of_cons in Hi as [Hi|Hi]; [done|].
      destruct (Hlast i) as (x & Hx & Hxl).
      { apply list_elem_of_fmap in Hi as (y & -> & Hy).
        apply list_elem_of_fmap_2, list_elem_of_filter. split; [|done].
        by intros ?. }
      exists x. split; [by right|].
      rewrite last_with_id_cons_other by done.
      rewrite <- Hxl. symmetry. apply last_with_id_filter.
      by intros y -> ?.
Qed.

(** The ids of the existing entries keep their positions, and no id is
    duplicated by the loop. *)
Lemma merge_NoDup left right :
  NoDup (ids h left) → NoDup (ids h (merge left right)).
Proof.
  intros Hnd. rewrite merge_decompose by done. unfold ids.
  rewrite fmap_app. apply NoDup_app. split_and!.
  - rewrite <- list_fmap_compose.
    erewrite list_fmap_ext; [exact Hnd|].
    intros ???. simpl. apply replacement_id.
  - intros i (e & -> & (e' & -> & He')%list_elem_of_fmap)%list_elem_of_fmap.
    intros (m & Hm & Hin)%list_elem_of_fmap.
    apply merge_nil_spec, list_elem_of_filter in Hin as [Hnew _].
    apply Hnew. rewrite <- Hm, replacement_id.
    by apply list_elem_of_fmap_2.
  - apply merge_nil_spec.
Qed.

(** Whatever id the batch carries ends up on exactly the last message of
    the batch that carries it. *)
Lemma merge_last left right i :
  NoDup (ids h left) → i ∈ ids h right →
  ∃ m, m ∈ merge left right ∧ last_with_id h i right = Some m.
Proof.
  intros Hnd Hi. rewrite merge_decompose by done.
  destruct (decide (i ∈ ids h left)) as [Hin|Hnew].
  - apply list_elem_of_fmap in Hin as (e & -> & He).
    exists (replacement h right e). split.
    + apply elem_of_app. left. by apply list_elem_of_fmap_2.
    + rewrite replacement_last.
      by destruct (last_with_id_is_Some _ _ Hi) as [x ->].
  - set (new := filter (λ m, id_of h m ∉ ids h left) right).
    destruct (merge_nil_spec new) as (_ & _ & Hlast).
    destruct (Hlast i) as (m & Hm & Hml).
    { apply list_elem_of_fmap in Hi as (y & -> & Hy).
      by apply list_elem_of_fmap_2, list_elem_of_filter. }
    exists m. split; [apply elem_of_app; by right|].
    rewrite <- Hml. symmetry. apply last_with_id_filter.
    by intros y ->.
Qed.
End merge_loop.

(** ** The first loop of [reduce_messages] *)

Lemma truthy_set_id m u : u ≠ "" → truthy (Message.id (Message.set_id m u)) = true.
Proof.
  intros Hu. simpl. apply negb_true_iff. by apply String.eqb_neq.
Qed.

Lemma truthy_Some_inv i : truthy i = true → ∃ s, i = Some s ∧ s ≠ "".
Proof.
  destruct i as [s|]; [|done]. simpl. intros Hs%negb_true_iff.
  exists s. split; [done|]. by apply String.eqb_neq.
Qed.

Section assign.
Context (uuid4 : nat → string).

Lemma assign_ids_app h l1 l2 k :
  assign_ids uuid4 h (l1 ++ l2) k
  = let '(h1, k1) := assign_ids uuid4 h l1 k in assign_ids uuid4 h1 l2 k1.
Proof.
  revert h k. induction l1 as [|r l1 IH]; intros h k; [done|].
  simpl. by destruct (truthy (id_of h r)).
Qed.

(** A batch whose messages all carry an id is left alone and draws no
    token. *)
Lemma assign_ids_all_truthy h right k :
  Forall (λ r, truthy (id_of h r) = true) right →
  assign_ids uuid4 h right k = (h, k).
Proof.
  induction 1 as [|r right Hr _ IH]; [done|]. simpl. by rewrite Hr.
Qed.

(** Only the [id] attribute of a message is ever assigned. *)
Lemma assign_ids_content h right k r :
  Message.content ((assign_ids uuid4 h right k).1 !!! r)
    = Message.content (h !!! r)
  ∧ Message.type ((assign_ids uuid4 h right k).1 !!! r)
    = Message.type (h !!! r).
Proof.
  revert h k. induction right as [|r0 right IH]; intros h k; [done|].
  simpl. destruct (truthy (id_of h r0)); [apply IH|].
  destruct (IH (<[r0:=Message.set_id (h !!! r0) (uuid4 k)]> h) (S k))
    as [-> ->].
  destruct (decide (r0 = r)) as [->|Hne].
  - by rewrite lookup_total_insert_eq.
  - by rewrite lookup_total_insert_ne.
Qed.

Context (uuid4_inj : Inj (=) (=) uuid4).
Context (uuid4_truthy : ∀ n, uuid4 n ≠ "").

(** What the first loop does to each message object [r]: either it
    already carried an id and is untouched, or it occurs in the batch
    without an id and receives a token that no other message in scope
    carries afterwards. *)
Lemma assign_ids_spec scope h right k h' k' :
  assign_ids uuid4 h right k = (h', k') →
  fresh_for uuid4 h k scope →
  k ≤ k' ∧ fresh_for uuid4 h' k' scope
  ∧ ∀ r,
      (h' !!! r = h !!! r ∧ (r ∈ right → truthy (id_of h r) = true))
      ∨ (r ∈ right ∧ truthy (id_of h r) = false
         ∧ ∃ j, k ≤ j < k'
             ∧ h' !!! r = Message.set_id (h !!! r) (uuid4 j)
             ∧ ∀ r', r' ∈ scope → r' ≠ r → id_of h' r' ≠ Some (uuid4 j)).
Proof.
  revert h k. induction right as [|r0 right IH]; intros h k Heq Hfresh.
  { simpl in Heq. injection Heq as <- <-. split_and!; [lia | done |].
    intros r. left. split; [done | by intros ?%elem_of_nil]. }
  simpl in Heq. destruct (truthy (id_of h r0)) eqn:Hr0.
  - destruct (IH _ _ Heq Hfresh) as (Hk & Hf & Hall).
    split_and!; [done..|]. intros r.
    destruct (Hall r) as [[Hsame Hin]|(Hin & Hno & Hj)].
    + left. split; [done|]. by intros [->|?]%elem_of_cons; [|apply Hin].
    + right. split_and!; [by right | done..].
  - set (h1 := <[r0:=Message.set_id (h !!! r0) (uuid4 k)]> h) in *.
    assert (∀ r, r ≠ r0 → h1 !!! r = h !!! r) as Hother.
    { intros r Hr. unfold h1. by rewrite lookup_total_insert_ne. }
    assert (h1 !!! r0 = Message.set_id (h !!! r0) (uuid4 k)) as Hr0'.
    { unfold h1. by rewrite lookup_total_insert_eq. }
    assert (fresh_for uuid4 h1 (S k) scope) as Hfresh1.
    { intros j Hj (r & Hr & Hin)%list_elem_of_fmap.
      destruct (decide (r = r0)) as [->|Hne].
      - unfold id_of in Hr. rewrite Hr0' in Hr. simpl in Hr.
        injection Hr as Hr. apply uuid4_inj in Hr. lia.
      - apply (Hfresh j); [lia|]. rewrite Hr. unfold id_of at 1.
        rewrite Hother by done. by apply (list_elem_of_fmap_2 (id_of h)). }
    destruct (IH _ _ Heq Hfresh1) as (Hk & Hf & Hall).
    split_and!; [lia | done |]. intros r.
    destruct (decide (r = r0)) as [->|Hne].
    + right. split_and!; [left | done |]. exists k.
      destruct (Hall r0) as [[Hsame _]|(_ & Hno & _)].
      2:{ unfold id_of in Hno. rewrite Hr0', truthy_set_id in Hno; done. }
      split_and!; [lia | lia | by rewrite Hsame |].
      intros r' Hscope Hr'.
      destruct (Hall r') as [[Hsame' _]|(_ & _ & j & Hj & Hset & _)].
      * unfold id_of. rewrite Hsame', Hother by done.
        intros Hid. apply (Hfresh k); [lia|]. rewrite <- Hid.
        by apply (list_elem_of_fmap_2 (id_of h)).
      * unfold id_of. rewrite Hset. simpl. intros [= Hid].
        apply uuid4_inj in Hid. lia.
    + destruct (Hall r) as [[Hsame Hin]|(Hin & Hno & j & Hj & Hset & Huniq)].
      * left. rewrite Hsame, Hother by done. split; [done|].
        intros [?|Hr]%elem_of_cons; [done|].
        specialize (Hin Hr). unfold id_of in *. by rewrite <- Hother.
      * right. unfold id_of in *. rewrite Hother in Hno, Hset by done.
        split_and!; [by right | done |].
        exists j. split_and!; [lia | lia | done | done].
Qed.
End assign.

Section assign_corollaries.
Context (uuid4 : nat → string).
Context (uuid4_inj : Inj (=) (=) uuid4).
Context (uuid4_truthy : ∀ n, uuid4 n ≠ "").

Lemma fresh_for_nil h k : fresh_for uuid4 h k [].
Proof. intros j _. apply not_elem_of_nil. Qed.

(** After the first loop every message of the batch carries an id. *)
Lemma assign_ids_truthy h right k h' k' r :
  assign_ids uuid4 h right k = (h', k') →
  r ∈ right → truthy (id_of h' r) = true.
Proof.
  intros Heq Hr.
  destruct (assign_ids_spec uuid4 uuid4_inj uuid4_truthy [] _ _ _ _ _
              Heq (fresh_for_nil h k)) as (_ & _ & Hall).
  destruct (Hall r) as [[Hsame Hin]|(_ & _ & j & _ & Hset & _)].
  - unfold id_of. rewrite Hsame. by apply Hin.
  - unfold id_of. rewrite Hset. by apply truthy_set_id.
Qed.

(** A message that carries an id, or that is not in the batch, is not
    touched by the first loop. *)
Lemma assign_ids_frame h right k h' k' r :
  assign_ids uuid4 h right k = (h', k') →
  truthy (id_of h r) = true ∨ r ∉ right → h' !!! r = h !!! r.
Proof.
  intros Heq Hr.
  destruct (assign_ids_spec uuid4 uuid4_inj uuid4_truthy [] _ _ _ _ _
              Heq (fresh_for_nil h k)) as (_ & _ & Hall).
  destruct (Hall r) as [[Hsame _]|(Hin & Hno & _)]; [done|].
  destruct Hr as [Hr|Hr]; [congruence | done].
Qed.

(** Pairwise distinct ids stay pairwise distinct when fresh tokens are
    assigned. *)
Lemma assign_ids_NoDup h left right k h' k' :
  assign_ids uuid4 h right k = (h', k') →
  fresh_for uuid4 h k (left ++ right) →
  NoDup (ids h left) → NoDup (ids h' left).
Proof.
  intros Heq Hfresh Hnd.
  destruct (assign_ids_spec uuid4 uuid4_inj uuid4_truthy _ _ _ _ _ _
              Heq Hfresh) as (_ & _ & Hall).
  apply NoDup_alt. intros p q i Hp Hq. unfold ids in Hp, Hq.
  apply list_lookup_fmap_Some in Hp as (r1 & -> & Hp).
  apply list_lookup_fmap_Some in Hq as (r2 & Hi & Hq).
  assert (r1 = r2 → p = q) as Hsame.
  { intros ->. apply NoDup_fmap_1 in Hnd.
    by eapply NoDup_lookup. }
  assert (r1 ∈ left ++ right ∧ r2 ∈ left ++ right) as [Hs1 Hs2].
  { split; apply elem_of_app; left; by eapply list_elem_of_lookup_2. }
  destruct (Hall r1) as [[E1 _]|(_ & _ & j1 & _ & E1 & U1)].
  - destruct (Hall r2) as [[E2 _]|(_ & _ & j2 & _ & E2 & U2)].
    + unfold id_of in Hi. rewrite E1, E2 in Hi.
      eapply (NoDup_lookup (ids h left)); [done| |].
      * unfold ids. rewrite list_lookup_fmap, Hp. done.
      * unfold ids. rewrite list_lookup_fmap, Hq. simpl.
        unfold id_of. by rewrite Hi.
      
    + apply Hsame. apply dec_stable. intros Hne.
      apply (U2 r1); [done | done |].
      rewrite Hi. unfold id_of. by rewrite E2.
  - apply Hsame. apply dec_stable. intros Hne.
    apply (U1 r2); [done | by intros -> |].
    rewrite <- Hi. unfold id_of. by rewrite E1.
Qed.
End assign_corollaries.

(** ** The token generator of the examples *)

Lemma token_head j : ∃ s, token j = String "u"%char s.
Proof. destruct j; simpl; eauto. Qed.

Lemma token_truthy j : token j ≠ "".
Proof. by destruct (token_head j) as [s ->]. Qed.

Global Instance token_inj : Inj (=) (=) token.
Proof.
  intros i. induction i as [|i IH]; intros [|j] Heq; simpl in *.
  - done.
  - injection Heq as Heq. by destruct (token_head j) as [s Hs]; rewrite Hs in Heq.
  - injection Heq as Heq. by destruct (token_head i) as [s Hs]; rewrite Hs in Heq.
  - injection Heq as Heq. f_equal. by apply IH.
Qed.

Lemma token_fresh_for h k scope :
  forallb not_a_token (ids h scope) = true → fresh_for token h k scope.
Proof.
  intros Hall j _ Hin. rewrite forallb_forall in Hall.
  apply list_elem_of_In, Hall in Hin.
  destruct (token_head j) as [s Hs]. by rewrite Hs in Hin.
Qed.

(** ** Properties of [reduce_messages] *)

Lemma merge_elem_of h left right m :
  m ∈ foldl (merge_message h) left right → m ∈ left ∨ m ∈ right.
Proof.
  revert left. induction right as [|x right IH]; intros left; simpl.
  { by left. }
  intros [Hm|Hm]%IH; [|right; by right].
  unfold merge_message in Hm.
  destruct (find_index h (id_of h x) left) as [p|].
  - destruct (decide (p < length left)) as [Hp|Hp].
    + apply list_elem_of_lookup in Hm as [q Hq].
      destruct (decide (p = q)) as [->|Hne].
      * rewrite list_lookup_insert_eq in Hq by done.
        injection Hq as <-. right; left.
      * rewrite list_lookup_insert_ne in Hq by done.
        left. by eapply list_elem_of_lookup_2.
    + rewrite list_insert_ge in Hm by lia. by left.
  - apply elem_of_app in Hm as [Hm|Hm%list_elem_of_singleton]; [by left|].
    subst. right; left.
Qed.

(** No entry is ever removed. *)
Lemma merge_length_ge h left right :
  length left ≤ length (foldl (merge_message h) left right).
Proof.
  revert left. induction right as [|m right IH]; intros left; [done|].
  simpl. etrans; [|apply IH]. unfold merge_message.
  destruct (find_index h (id_of h m) left).
  - by rewrite length_insert.
  - rewrite length_app. simpl. lia.
Qed.

(** A list that already is the result of a merge onto [base] is a fixed
    point of merging onto [base]. *)
Lemma merge_fixpoint h base l1 l2 :
  ids h l1 = ids h base → NoDup (ids h (l1 ++ l2)) →
  foldl (merge_message h) base (l1 ++ l2) = l1 ++ l2.
Proof.
  revert base. induction l1 as [|a l1 IH]; intros base Hids Hnd.
  - destruct base; [|done]. by apply merge_nil_NoDup.
  - destruct base as [|b base]; [done|]. injection Hids as Hab Hids.
    change (ids h ((a :: l1) ++ l2)) with (id_of h a :: ids h (l1 ++ l2))
      in Hnd.
    apply NoDup_cons in Hnd as [Ha Hnd].
    simpl. rewrite merge_message_head_match by done.
    rewrite merge_cons, replacement_no_match by done. f_equal.
    rewrite filter_all; [by apply IH|].
    apply Forall_forall. intros m Hm Heq. apply Ha. rewrite <- Heq.
    by apply (list_elem_of_fmap_2 (id_of h)).
Qed.

(** C1 (as amended).  For an existing history with pairwise distinct ids
    and an incoming batch in which the messages that match no existing
    entry carry pairwise distinct ids once ids are assigned,
    [reduce_messages] gives every incoming message that lacks an id a
    fresh token that no other message of the history or of the batch
    carries, leaves the other incoming messages as they are, replaces in
    place each existing entry whose id an incoming message carries, and
    appends the incoming messages whose id matches no existing entry, in
    incoming order. *)
Theorem reduce_messages_merges uuid4 h left right k h' merged k' :
  Inj (=) (=) uuid4 →
  (∀ n, uuid4 n ≠ "") →
  fresh_for uuid4 h k (left ++ right) →
  NoDup (ids h left) →
  reduce_messages uuid4 h left right k = (h', merged, k') →
  NoDup (ids h' (filter (λ m, id_of h' m ∉ ids h' left) right)) →
  (∀ r, r ∈ right →
     if truthy (id_of h r) then h' !!! r = h !!! r
     else (∃ j, k ≤ j < k' ∧ h' !!! r = Message.set_id (h !!! r) (uuid4 j))
          ∧ ∀ r', r' ∈ left ++ right → r' ≠ r → id_of h' r' ≠ id_of h' r)
  ∧ merged = merge_spec h' left right.
Proof.
  intros Hinj Htruthy Hfresh Hnd Heq Hnew. unfold reduce_messages in Heq.
  destruct (assign_ids uuid4 h right k) as [h1 k1] eqn:Hassign.
  injection Heq as -> <- ->.
  destruct (assign_ids_spec uuid4 Hinj Htruthy _ _ _ _ _ _ Hassign Hfresh)
    as (_ & _ & Hall).
  split.
  - intros r Hr.
    destruct (Hall r) as [[Hsame Hin]|(_ & Hno & j & Hj & Hset & Huniq)].
    + by rewrite Hin.
    + rewrite Hno. split; [by exists j|].
      intros r' Hscope Hne. unfold id_of at 2. rewrite Hset. simpl.
      by apply Huniq.
  - apply merge_is_merge_spec; [|done].
    by eapply assign_ids_NoDup.
Qed.

(** C5 (as amended).  [reduce_messages] never fails, whatever ids the
    existing sequence holds: the call returns a list that is at least as
    long as the existing one; and when several existing entries share one
    id, an incoming message with that id replaces the first of them and
    the later ones stay where they are. *)
Theorem reduce_messages_never_fails :
  (∀ uuid4 h left right k,
     ∃ h' merged k',
       call_reduce_messages uuid4 h left right k = Returns (h', merged, k')
       ∧ length left ≤ length merged)
  ∧ (∀ uuid4 h before e after m k,
       truthy (id_of h m) = true →
       id_of h e = id_of h m →
       id_of h m ∉ ids h before →
       call_reduce_messages uuid4 h (before ++ e :: after) [m] k
       = Returns (h, before ++ m :: after, k)).
Proof.
  split.
  - intros uuid4 h left right k. unfold call_reduce_messages, reduce_messages.
    destruct (assign_ids uuid4 h right k) as [h' k'].
    exists h', (foldl (merge_message h') left right), k'. split; [done|].
    apply merge_length_ge.
  - intros uuid4 h before e after m k Hm He Hbefore.
    unfold call_reduce_messages, reduce_messages.
    simpl. rewrite Hm. do 3 f_equal.
    clear Hm. induction before as [|b before IH]; simpl.
    + by rewrite merge_message_head_match.
    + change (ids h (b :: before)) with (id_of h b :: ids h before)
        in Hbefore.
      apply not_elem_of_cons in Hbefore as [Hb Hbefore].
      rewrite merge_message_head_other by done. f_equal. by apply IH.
Qed.

(** C7.  Merging again what a merge returned changes nothing: for a
    history with pairwise distinct ids and a batch, all of whose messages
    carry ids, the second merge returns the list of the first, assigns no
    id and draws no token. *)
Theorem reduce_messages_idempotent uuid4 h H M k h1 R k1 :
  Forall (λ r, truthy (id_of h r) = true) H →
  Forall (λ r, truthy (id_of h r) = true) M →
  NoDup (ids h H) →
  reduce_messages uuid4 h H M k = (h1, R, k1) →
  reduce_messages uuid4 h1 H R k1 = (h1, R, k1).
Proof.
  intros HH HM Hnd. unfold reduce_messages.
  rewrite (assign_ids_all_truthy uuid4 h M k HM). intros [= <- <- <-].
  set (R := foldl (merge_message h) H M).
  assert (Forall (λ r, truthy (id_of h r) = true) R) as HR.
  { apply Forall_forall. intros m [Hm|Hm]%merge_elem_of.
    - by eapply Forall_forall in HH.
    - by eapply Forall_forall in HM. }
  rewrite (assign_ids_all_truthy uuid4 h R k HR). do 2 f_equal.
  pose proof (merge_NoDup h H M Hnd) as HndR. fold R in HndR.
  unfold R in *. clear R HR. rewrite (merge_decompose h H M Hnd) in *.
  apply merge_fixpoint; [|done].
  unfold ids. rewrite <- list_fmap_compose. apply list_fmap_ext.
  intros ???. simpl. apply replacement_id.
Qed.

(** C10.  Whatever the incoming batch repeats, the result of
    [reduce_messages] has pairwise distinct ids when the existing sequence
    has, and each id of the batch stands at one position only, which holds
    the last message of the batch that carries this id. *)
Theorem reduce_messages_last_wins uuid4 h left right k h' merged k' :
  Inj (=) (=) uuid4 →
  (∀ n, uuid4 n ≠ "") →
  fresh_for uuid4 h k (left ++ right) →
  NoDup (ids h left) →
  reduce_messages uuid4 h left right k = (h', merged, k') →
  NoDup (ids h' merged)
  ∧ ∀ i, i ∈ ids h' right →
      ∃ p m, merged !! p = Some m
           ∧ last_with_id h' i right = Some m
           ∧ ∀ q m', merged !! q = Some m' → id_of h' m' = i → q = p.
Proof.
  intros Hinj Htruthy Hfresh Hnd Heq. unfold reduce_messages in Heq.
  destruct (assign_ids uuid4 h right k) as [h1 k1] eqn:Hassign.
  injection Heq as -> <- ->.
  assert (NoDup (ids h' left)) as Hnd' by by eapply assign_ids_NoDup.
  pose proof (merge_NoDup h' left right Hnd') as HndM.
  split; [done|]. intros i Hi.
  destruct (merge_last h' left right i Hnd' Hi) as (m & Hm & Hlast).
  apply list_elem_of_lookup in Hm as [p Hp].
  exists p, m. split_and!; [done..|].
  intros q m' Hq Hid.
  eapply (NoDup_lookup (ids h' (foldl (merge_message h') left right)));
    [done | |].
  - unfold ids. rewrite list_lookup_fmap, Hq. simpl. by rewrite Hid.
  - unfold ids. rewrite list_lookup_fmap, Hp. simpl.
    by apply last_with_id_Some in Hlast as [_ ->].
Qed.

(** *** Examples for [reduce_messages] *)

Lemma NoDup_ids_dec h l :
  bool_decide (NoDup (ids h l)) = true → NoDup (ids h l).
Proof. apply bool_decide_eq_true_1. Qed.

Lemma Forall_truthy_dec h l :
  forallb (λ r, truthy (id_of h r)) l = true →
  Forall (λ r, truthy (id_of h r) = true) l.
Proof.
  rewrite forallb_forall, Forall_forall. intros Hall r Hr.
  by apply Hall, list_elem_of_In.
Qed.

(** Existing [hello, other]; incoming [hello again, draft, first]: the
    first entry is replaced, the draft receives the token "u", the two
    new messages are appended in order. *)
Lemma reduce_messages_merges_example :
  let h' := <[3 := Message.mk AIMessage "draft" (Some "u")]> demo_objects in
  reduce_messages token demo_objects [0; 5] [4; 3; 1] 0 = (h', [4; 5; 3; 1], 1)
  ∧ [4; 5; 3; 1] = merge_spec h' [0; 5] [4; 3; 1].
Proof.
  intros h'.
  assert (reduce_messages token demo_objects [0; 5] [4; 3; 1] 0
          = (h', [4; 5; 3; 1], 1)) as Heq by reflexivity.
  split; [exact Heq|].
  apply (reduce_messages_merges token demo_objects [0; 5] [4; 3; 1] 0
           h' [4; 5; 3; 1] 1 token_inj token_truthy).
  - by apply token_fresh_for.
  - by apply NoDup_ids_dec.
  - exact Heq.
  - by apply NoDup_ids_dec.
Defined.

(** Two incoming messages with the id "b", which the existing history does
    not hold: the specification appends both, the code keeps one entry. *)
Lemma reduce_messages_merges_counterexample :
  NoDup (ids demo_objects [0])
  ∧ fresh_for token demo_objects 0 ([0] ++ [1; 2])
  ∧ reduce_messages token demo_objects [0] [1; 2] 0 = (demo_objects, [0; 2], 0)
  ∧ merge_spec demo_objects [0] [1; 2] = [0; 1; 2].
Proof.
  split_and!.
  - by apply NoDup_ids_dec.
  - by apply token_fresh_for.
  - reflexivity.
  - reflexivity.
Qed.

(** An existing sequence that holds the id "b" twice: the call returns. *)
Lemma reduce_messages_no_InvariantViolation :
  ¬ NoDup (ids demo_objects [1; 2])
  ∧ call_reduce_messages token demo_objects [1; 2] [5] 0
    = Returns (demo_objects, [1; 2; 5], 0).
Proof.
  split; [|reflexivity].
  intros Hnd. apply NoDup_cons in Hnd as [Hin _]. apply Hin. left.
Qed.

Lemma reduce_messages_never_fails_example :
  call_reduce_messages token demo_objects ([0] ++ 1 :: [2]) [6] 0
  = Returns (demo_objects, [0] ++ 6 :: [2], 0).
Proof.
  apply (proj2 reduce_messages_never_fails token demo_objects [0] 1 [2] 6 0).
  - reflexivity.
  - reflexivity.
  - intros [Hin|Hin%elem_of_nil]%elem_of_cons; done.
Defined.

Lemma reduce_messages_idempotent_example :
  reduce_messages token demo_objects [0; 5] [4; 1; 2] 0
    = (demo_objects, [4; 5; 2], 0)
  ∧ reduce_messages token demo_objects [0; 5] [4; 5; 2] 0
    = (demo_objects, [4; 5; 2], 0).
Proof.
  assert (reduce_messages token demo_objects [0; 5] [4; 1; 2] 0
          = (demo_objects, [4; 5; 2], 0)) as Heq by reflexivity.
  split; [exact Heq|].
  apply (reduce_messages_idempotent token demo_objects [0; 5] [4; 1; 2] 0
           demo_objects [4; 5; 2] 0).
  - by apply Forall_truthy_dec.
  - by apply Forall_truthy_dec.
  - by apply NoDup_ids_dec.
  - exact Heq.
Defined.

(** Incoming [first, hello again, second]: the id "b" occurs twice in the
    batch and ends at one position, held by "second". *)
Lemma reduce_messages_last_wins_example :
  NoDup (ids demo_objects [4; 2])
  ∧ ∀ i, i ∈ ids demo_objects [1; 4; 2] →
      ∃ p m, [4; 2] !! p = Some m
           ∧ last_with_id demo_objects i [1; 4; 2] = Some m
           ∧ ∀ q m', [4; 2] !! q = Some m' → id_of demo_objects m' = i → q = p.
Proof.
  apply (reduce_messages_last_wins token demo_objects [0] [1; 4; 2] 0
           demo_objects [4; 2] 0 token_inj token_truthy).
  - by apply token_fresh_for.
  - by apply NoDup_ids_dec.
  - reflexivity.
Defined.

(** ** Properties of [SingleAgent.process] *)

(** C9 (as amended).  [process] returns the very state it was given, its
    metadata included.  The one response of the language model becomes a
    new message object, and a reference to it is appended to the caller's
    history list in place: the list is the input list followed by the
    response.  No other list and no existing message object changes, the
    response receives no id and replaces nothing, and no token is drawn. *)
Theorem SingleAgent_process_appends_in_place llm_invoke cfg state σ :
  let L := lists σ !!! messages state in
  let prompt :=
    Message.mk SystemMessage (system_message cfg) None :: view (msgs σ) L in
  ∃ σ', SingleAgent_process llm_invoke cfg state σ = (σ', state)
      ∧ lists σ' !!! messages state = L ++ [next σ]
      ∧ msgs σ' !!! next σ = llm_invoke cfg prompt
      ∧ (∀ r, r ≠ next σ → msgs σ' !!! r = msgs σ !!! r)
      ∧ (∀ l, l ≠ messages state → lists σ' !!! l = lists σ !!! l)
      ∧ drawn σ' = drawn σ.
Proof.
  intros L prompt. eexists. split; [reflexivity|]. simpl. split_and!.
  - by rewrite lookup_total_insert_eq.
  - by rewrite lookup_total_insert_eq.
  - intros r Hr. by rewrite lookup_total_insert_ne.
  - intros l Hl. by rewrite lookup_total_insert_ne.
  - done.
Qed.

(** The caller's state holds one message before the call and two after
    it; the appended response has no id, where a merge of the response
    into the history would have given it one. *)
Lemma SingleAgent_process_modifies_input :
  history caller_store caller_state
    = [Message.mk HumanMessage "hello" (Some "a")]
  ∧ history (SingleAgent_process echo (agent "A") caller_state caller_store).1
            caller_state
    = [Message.mk HumanMessage "hello" (Some "a");
       Message.mk AIMessage "A" None]
  ∧ (let '(h, merged, _) :=
       reduce_messages token
         (<[11 := echo (agent "A") []]> demo_objects) [0] [11] 0 in
     view h merged)
    = [Message.mk HumanMessage "hello" (Some "a");
       Message.mk AIMessage "A" (Some "u")].
Proof. split_and!; reflexivity. Qed.

(** ** Properties of the continuation predicates *)

Lemma should_continue_length σ state :
  SingleAgent_should_continue σ state
    = len_lt (length (history σ state))
             (default (PyInt 10) (metadata state !! "max_turns"))
  ∧ MultiAgentWorkflow_should_continue σ state
    = len_lt (length (history σ state))
             (default (PyInt 20) (metadata state !! "max_turns")).
Proof.
  unfold history, view. rewrite length_fmap. done.
Qed.

(** C8.  Both predicates answer [True] on a history of two messages with
    [max_turns = 10] whose last message reads "TASK COMPLETE": the
    contents of the messages are never looked at. *)
Theorem should_continue_ignores_markers :
  Message.content <$> history completed_store completed_state
    = ["start"; "TASK COMPLETE"]
  ∧ SingleAgent_should_continue completed_store completed_state
    = Returns true
  ∧ MultiAgentWorkflow_should_continue completed_store completed_state
    = Returns true.
Proof. split_and!; reflexivity. Qed.

(** ** Construction of the workflow *)

Lemma keys_dict_set {V} (d : list (string * V)) k v :
  keys (dict_set d k v) = if decide (k ∈ keys d) then keys d else keys d ++ [k].
Proof.
  induction d as [|[k' v'] d IH].
  - destruct (decide (k ∈ keys [])) as [Hin|_]; [|done].
    by apply elem_of_nil in Hin.
  - cbn [dict_set]. destruct (decide (k' = k)) as [->|Hne].
    + change (keys ((k, v) :: d)) with (k :: keys d).
      change (keys ((k, v') :: d)) with (k :: keys d).
      rewrite decide_True; [done | left].
    + change (keys ((k', v') :: dict_set d k v))
        with (k' :: keys (dict_set d k v)).
      change (keys ((k', v') :: d)) with (k' :: keys d). rewrite IH.
      destruct (decide (k ∈ keys d)) as [Hin|Hin].
      * rewrite decide_True; [done | by right].
      * rewrite decide_False; [done|].
        by intros [?|?]%elem_of_cons.
Qed.

Lemma dict_set_NoDup {V} (d : list (string * V)) k v :
  NoDup (keys d) → NoDup (keys (dict_set d k v)).
Proof.
  intros Hnd. rewrite keys_dict_set. case_decide; [done|].
  apply NoDup_app. split_and!; [done | | apply NoDup_singleton].
  intros x Hx ->%list_elem_of_singleton. done.
Qed.

Lemma dict_get_dict_set {V} (d : list (string * V)) k v n :
  dict_get (dict_set d k v) n
  = if decide (k = n) then Some v else dict_get d n.
Proof.
  induction d as [|[k' v'] d IH]; simpl.
  - done.
  - destruct (decide (k' = k)) as [->|Hne]; simpl.
    + by destruct (decide (k = n)).
    + rewrite IH. destruct (decide (k' = n)) as [->|?]; [|done].
      by rewrite decide_False.
Qed.

Lemma agents_dict_fold_NoDup d cs :
  NoDup (keys d) →
  NoDup (keys (foldl (λ d cfg, dict_set d (name cfg) cfg) d cs)).
Proof.
  revert d. induction cs as [|c cs IH]; intros d Hd; [done|].
  simpl. by apply IH, dict_set_NoDup.
Qed.

(** The keys of [self.agents] are pairwise distinct, whatever the list of
    configurations. *)
Lemma agents_dict_NoDup cs : NoDup (keys (agents_dict cs)).
Proof. apply agents_dict_fold_NoDup. constructor. Qed.

Lemma agents_dict_fold_head k v d cs :
  ∃ v' d', foldl (λ d cfg, dict_set d (name cfg) cfg) ((k, v) :: d) cs
           = (k, v') :: d'.
Proof.
  revert v d. induction cs as [|c cs IH]; intros v d; simpl; [by eauto|].
  destruct (decide (k = name c)) as [->|Hne]; apply IH.
Qed.

(** The first configuration's name is the first key. *)
Lemma agents_dict_head c cs :
  ∃ c' d, agents_dict (c :: cs) = (name c, c') :: d.
Proof. unfold agents_dict. simpl. apply agents_dict_fold_head. Qed.

(** Under a name that several configurations share, the dictionary holds
    the last of them. *)
Lemma agents_dict_fold_get d cs n :
  dict_get (foldl (λ d cfg, dict_set d (name cfg) cfg) d cs) n
  = match last (filter (λ c, name c = n) cs) with
    | Some c => Some c
    | None => dict_get d n
    end.
Proof.
  revert d. induction cs as [|c cs IH]; intros d; [done|].
  simpl. rewrite IH, dict_get_dict_set.
  destruct (decide (name c = n)) as [Hn|Hn].
  - rewrite filter_cons_True by done. rewrite last_cons.
    by destruct (last _).
  - by rewrite filter_cons_False.
Qed.

Lemma sequential_fold g prev items :
  foldl sequential_body (g, prev) items
  = ({| nodes := nodes g ++ items;
        edges := edges g ++ chain prev items;
        conditional_edges := conditional_edges g;
        entry_point := entry_point g;
        graph_checkpointer := graph_checkpointer g |},
     match last items with
     | Some item => Some item.1
     | None => prev
     end).
Proof.
  revert g prev. induction items as [|[n c] items IH]; intros g prev.
  - simpl. rewrite !app_nil_r. by destruct g.
  - simpl foldl. rewrite IH. simpl. rewrite last_cons.
    f_equal; [|by destruct (last items)].
    destruct (truthy prev); simpl; by rewrite <- !app_assoc.
Qed.

Lemma add_node_fold g (items : list (string * AgentConfig)) :
  foldl (λ g item, add_node g item.1 item.2) g items
  = {| nodes := nodes g ++ items; edges := edges g;
       conditional_edges := conditional_edges g;
       entry_point := entry_point g;
       graph_checkpointer := graph_checkpointer g |}.
Proof.
  revert g. induction items as [|[n c] items IH]; intros g.
  - simpl. rewrite app_nil_r. by destruct g.
  - simpl. rewrite IH. simpl. by rewrite <- app_assoc.
Qed.

Lemma add_edge_fold g n (others : list string) :
  foldl (λ g other, add_edge g n other) g others
  = {| nodes := nodes g; edges := edges g ++ ((λ o, (n, o)) <$> others);
       conditional_edges := conditional_edges g;
       entry_point := entry_point g;
       graph_checkpointer := graph_checkpointer g |}.
Proof.
  revert g. induction others as [|o others IH]; intros g.
  - simpl. rewrite app_nil_r. by destruct g.
  - simpl. rewrite IH. simpl. by rewrite <- app_assoc.
Qed.

Lemma broadcast_fold g names (sources : list string) :
  foldl (λ g n, broadcast_edges g names n) g sources
  = {| nodes := nodes g;
       edges := edges g
         ++ (sources ≫= λ n,
               (λ o, (n, o)) <$> filter (λ other, other ≠ n) names);
       conditional_edges := conditional_edges g;
       entry_point := entry_point g;
       graph_checkpointer := graph_checkpointer g |}.
Proof.
  revert g. induction sources as [|n sources IH]; intros g.
  - simpl. rewrite app_nil_r. by destruct g.
  - simpl. rewrite IH. unfold broadcast_edges. rewrite add_edge_fold. simpl.
    by rewrite <- app_assoc.
Qed.

(** The graph of the sequential branch, as handed to [compile]. *)
Lemma build_graph_sequential n c items :
  MultiAgentWorkflow_wiring ((n, c) :: items) "sequential"
  = Returns (sequential_wiring n c items).
Proof.
  unfold MultiAgentWorkflow_wiring, sequential_wiring.
  rewrite decide_True by done. rewrite sequential_fold. simpl.
  unfold add_conditional_edges, set_entry_point. simpl. do 3 f_equal.
  rewrite last_cons. unfold keys. rewrite fmap_last.
  by destruct (last items).
Qed.

(** The graph of the broadcast branch, as handed to [compile]. *)
Lemma build_graph_broadcast n c items :
  MultiAgentWorkflow_wiring ((n, c) :: items) "broadcast"
  = Returns (broadcast_wiring n c items).
Proof.
  unfold MultiAgentWorkflow_wiring, broadcast_wiring.
  rewrite decide_False by done. rewrite decide_True by done.
  rewrite add_node_fold, broadcast_fold. reflexivity.
Qed.

Lemma truthy_name n : n ≠ "" → truthy (Some n) = true.
Proof. intros Hn. simpl. apply negb_true_iff. by apply String.eqb_neq. Qed.

Lemma chain_cons prev n c rest :
  chain prev ((n, c) :: rest)
  = (if truthy prev then [(default "" prev, n)] else [])
      ++ chain (Some n) rest.
Proof. done. Qed.

Lemma bind_Returns {A B} (a : A) (f : A → outcome B) :
  (Returns a ≫= f) = f a.
Proof. done. Qed.

(** ** What [compile] accepts *)

Lemma forallb_bool_decide {A} (P : A → Prop) `{!∀ x, Decision (P x)} l :
  forallb (λ x, bool_decide (P x)) l = true ↔ Forall P l.
Proof.
  induction l as [|x l IH]; simpl.
  - split; [constructor | done].
  - by rewrite andb_true_iff, bool_decide_eq_true, IH, Forall_cons.
Qed.

Lemma validate_spec g :
  validate g = true
  ↔ is_Some (entry_point g)
    ∧ Forall (λ n, n ∈ keys (nodes g))
             ((edges g).*1 ++ (conditional_edges g).*1 ++ edge_targets g)
    ∧ Forall (λ n, n ∈ edge_targets g) (keys (nodes g)).
Proof.
  unfold validate.
  rewrite !andb_true_iff, bool_decide_eq_true, !forallb_bool_decide. tauto.
Qed.

(** [compile()] accepts the graph of a single agent. *)
Lemma SingleAgent_graph_compiles cfg :
  compile
    (set_entry_point
       (add_conditional_edges (add_node empty_graph "process" cfg) "process"
          SingleAgent_should_continue (Node "process") END)
       "process")
    None
  = Returns (SingleAgent_build_graph cfg).
Proof. reflexivity. Qed.

Lemma removelast_sublist {A} (l : list A) : removelast l `sublist_of` l.
Proof. rewrite removelast_firstn_len. apply sublist_take. Qed.

(** The sources of the edges of the sequential branch: [prev_node] and
    every name but the last. *)
Lemma chain_sources prev items :
  keys (chain prev items)
  `sublist_of` option_list prev ++ removelast (keys items).
Proof.
  revert prev. induction items as [|[n c] items IH]; intros prev.
  - apply sublist_nil_l.
  - rewrite chain_cons. unfold keys at 1. rewrite fmap_app.
    change ((chain (Some n) items).*1) with (keys (chain (Some n) items)).
    assert ((if truthy prev then [(default "" prev, n)] else []).*1
            `sublist_of` option_list prev) as Hprev.
    { destruct prev as [p|]; [|done].
      destruct (truthy (Some p)); [done | apply sublist_nil_l]. }
    destruct items as [|[n' c'] items].
    + rewrite app_nil_r. by apply sublist_inserts_r.
    + apply sublist_app; [done|]. apply (IH (Some n)).
Qed.

Lemma chain_sources_NoDup items :
  NoDup (keys items) → NoDup (keys (chain None items)).
Proof.
  intros Hnd. eapply sublist_NoDup; [exact Hnd|].
  etrans; [apply chain_sources|]. apply removelast_sublist.
Qed.

(** The targets of the edges of the sequential branch, when no name but
    the last is empty: every name but the first. *)
Lemma chain_targets prev items :
  Forall (λ n, n ≠ "") (removelast (keys items)) →
  (chain prev items).*2
  = if truthy prev then keys items else tail (keys items).
Proof.
  revert prev. induction items as [|[n c] items IH]; intros prev Hnames.
  - by destruct (truthy prev).
  - rewrite chain_cons, fmap_app.
    assert ((chain (Some n) items).*2 = keys items) as ->.
    { destruct items as [|[n' c'] items]; [done|].
      change (Forall (λ n, n ≠ "")
                (n :: removelast (keys ((n', c') :: items)))) in Hnames.
      apply Forall_cons in Hnames as [Hn Hrest].
      rewrite IH by done. by rewrite truthy_name. }
    by destruct (truthy prev).
Qed.

(** An edge of the sequential branch starts at a name that is not empty,
    and leads from a name to the next one. *)
Lemma chain_elem_of prev items a b :
  (a, b) ∈ chain prev items →
  a ≠ ""
  ∧ ((prev = Some a ∧ head (keys items) = Some b)
     ∨ ∃ pre post, keys items = pre ++ a :: b :: post).
Proof.
  revert prev. induction items as [|[n c] items IH]; intros prev.
  - by intros ?%elem_of_nil.
  - rewrite chain_cons. intros [Hin|Hin]%elem_of_app.
    + destruct prev as [p|]; [|by apply elem_of_nil in Hin].
      destruct (truthy (Some p)) eqn:Hp; [|by apply elem_of_nil in Hin].
      apply list_elem_of_singleton in Hin as [= -> ->]. split.
      * intros ->. done.
      * by left.
    + destruct (IH _ Hin) as [Ha [[[= <-] Hhead]|(pre & post & Hkeys)]];
        (split; [done|]); right.
      * exists [], (tail (keys items)).
        change (keys ((n, c) :: items)) with (n :: keys items).
        destruct (keys items); [done|]. by injection Hhead as ->.
      * exists (n :: pre), post.
        change (keys ((n, c) :: items)) with (n :: keys items).
        by rewrite Hkeys.
Qed.

Lemma elem_of_removelast {A} (a : A) l :
  a ∈ removelast l → ∃ pre x post, l = pre ++ a :: x :: post.
Proof.
  induction l as [|y l IH]; [by intros ?%elem_of_nil|].
  destruct l as [|z l]; [by intros ?%elem_of_nil|].
  change (removelast (y :: z :: l)) with (y :: removelast (z :: l)).
  intros [->|Hin]%elem_of_cons.
  - by exists [], z, l.
  - destruct (IH Hin) as (pre & x & post & ->).
    by exists (y :: pre), x, post.
Qed.

Lemma NoDup_split_unique {A} (l1 l2 r1 r2 : list A) x :
  NoDup (l1 ++ x :: r1) → l1 ++ x :: r1 = l2 ++ x :: r2 → l1 = l2.
Proof.
  revert l2. induction l1 as [|y l1 IH]; intros l2 Hnd Heq.
  - destruct l2 as [|z l2]; [done|]. injection Heq as <- ->.
    apply NoDup_cons in Hnd as [Hnotin _]. exfalso. apply Hnotin.
    apply elem_of_app. right. left.
  - destruct l2 as [|z l2].
    + injection Heq as -> <-. apply NoDup_cons in Hnd as [Hnotin _].
      exfalso. apply Hnotin. apply elem_of_app. right. left.
    + injection Heq as <- Heq. apply NoDup_cons in Hnd as [_ Hnd].
      f_equal. by apply IH.
Qed.

Section sequential_graph.
Context (n0 : string) (c0 : AgentConfig) (rest : list (string * AgentConfig)).


Lemma seq_graph_targets :
  edge_targets (sequential_wiring n0 c0 rest) = n0 :: (chain None ((n0, c0) :: rest)).*2 ++ [n0].
Proof. unfold edge_targets. simpl. by rewrite ?app_nil_r. Qed.

(** [compile] accepts the graph of the sequential branch when no agent
    but the last has an empty name. *)
Lemma validate_sequential :
  Forall (λ n, n ≠ "") (removelast (keys ((n0, c0) :: rest))) →
  validate (sequential_wiring n0 c0 rest) = true.
Proof.
  intros Hnames. apply validate_spec. split_and!.
  - by eexists.
  - rewrite seq_graph_targets. cbn [edges conditional_edges nodes sequential_wiring].
    rewrite chain_targets by done. cbn [truthy tail keys fmap list_fmap fst].
    apply Forall_app. split; [|apply Forall_app; split].
    + apply Forall_forall. intros n Hn.
      pose proof (elem_of_sublist _ _ _ Hn (chain_sources None ((n0, c0) :: rest)))
        as Hn'.
      apply (elem_of_sublist _ _ _ Hn'), removelast_sublist.
    + apply Forall_singleton. simpl.
      destruct (last (keys rest)) as [l|] eqn:Hlast; simpl; [|left].
      right. by apply last_Some_elem_of.
    + apply Forall_cons. split; [left|].
      apply Forall_app. split.
      * apply Forall_forall. intros n Hn. by right.
      * apply Forall_singleton. left.
  - rewrite seq_graph_targets. cbn [nodes sequential_wiring].
    rewrite chain_targets by done.
    apply Forall_forall. intros n Hn.
    change (keys ((n0, c0) :: rest)) with (n0 :: keys rest) in Hn.
    apply elem_of_cons in Hn as [->|Hn]; [left|].
    right. apply elem_of_app. by left.
Qed.

(** [compile] refuses it when an agent other than the last has an empty
    name: no edge leads to the agent that follows. *)
Lemma validate_sequential_unreachable :
  NoDup (keys ((n0, c0) :: rest)) → "" ∈ removelast (keys ((n0, c0) :: rest)) →
  validate (sequential_wiring n0 c0 rest) = false.
Proof.
  intros Hnd Hempty. apply not_true_iff_false. intros Hvalid.
  apply validate_spec in Hvalid as (_ & _ & Hreach).
  apply elem_of_removelast in Hempty as (pre & x & post & Hkeys).
  cbn [nodes sequential_wiring] in Hreach.
  assert (x ∈ keys ((n0, c0) :: rest)) as Hx.
  { rewrite Hkeys. apply elem_of_app. right. right. left. }
  rewrite Forall_forall in Hreach. specialize (Hreach x Hx).
  rewrite Hkeys in Hnd.
  assert (x ≠ n0) as Hne.
  { intros ->. change (keys ((n0, c0) :: rest)) with (n0 :: keys rest) in Hkeys.
    destruct pre as [|p pre].
    - injection Hkeys as -> _.
      apply NoDup_cons in Hnd as [Hnotin _]. apply Hnotin. left.
    - injection Hkeys as <- _.
      apply NoDup_cons in Hnd as [Hnotin _]. apply Hnotin.
      apply elem_of_app. right. right. left. }
  rewrite seq_graph_targets in Hreach.
  apply elem_of_cons in Hreach as [?|Hreach]; [done|].
  apply elem_of_app in Hreach as [Hreach|Hreach];
    [|by apply list_elem_of_singleton in Hreach].
  apply list_elem_of_fmap in Hreach as ([a b] & Hb & Hin). simpl in Hb.
  subst b. apply chain_elem_of in Hin as [Ha [[? _]|(pre' & post' & Hkeys')]];
    [done|].
  rewrite Hkeys in Hkeys'.
  assert (pre ++ [""] = pre' ++ [a]) as Heq.
  { apply (NoDup_split_unique _ _ post post' x).
    - by rewrite <- app_assoc.
    - by rewrite <- !app_assoc. }
  apply app_inj_tail in Heq as [_ Heq]. done.
Qed.
End sequential_graph.

(** [compile] accepts the graph of the broadcast branch. *)
Lemma validate_broadcast n c items :
  validate (broadcast_wiring n c items) = true.
Proof.
  set (agents := (n, c) :: items).
  assert (∀ a b,
            (a, b) ∈ (keys agents ≫= λ a,
                        (λ o, (a, o)) <$> filter (λ other, other ≠ a)
                                                 (keys agents))
            ↔ a ∈ keys agents ∧ b ∈ keys agents ∧ a ≠ b) as Hedges.
  { intros a b. rewrite list_elem_of_bind. split.
    - intros (a' & Hab & Ha).
      apply list_elem_of_fmap in Hab as (b' & [= -> ->] & Hb).
      apply list_elem_of_filter in Hb as [Hne Hb]. done.
    - intros (Ha & Hb & Hne). exists a. split; [|done].
      apply list_elem_of_fmap. exists b. split; [done|].
      apply list_elem_of_filter. split; [by intros ->|done]. }
  apply validate_spec. unfold edge_targets. simpl.
  rewrite app_nil_r. split_and!.
  - by eexists.
  - apply Forall_app. split; [|apply Forall_cons; split; [left|]].
    + apply Forall_forall. intros a Ha.
      apply list_elem_of_fmap in Ha as ([a' b] & -> & Hin).
      by apply Hedges in Hin as (? & _).
    + apply Forall_forall. intros b Hb.
      apply list_elem_of_fmap in Hb as ([a b'] & -> & Hin).
      by apply Hedges in Hin as (_ & ? & _).
  - apply Forall_forall. intros b Hb.
    destruct (decide (b = n)) as [->|Hne]; [left|]. right.
    apply list_elem_of_fmap. exists (n, b). split; [done|].
    apply Hedges. split_and!; [left | done | done].
Qed.

(** The constructor, once the dictionary of agents is known. *)
Lemma init_sequential c cs path n c' d :
  agents_dict (c :: cs) = (n, c') :: d →
  MultiAgentWorkflow_init (c :: cs) "sequential" path
  = (let cp := if truthy path then default "" path else ":memory:" in
     if decide ("" ∈ removelast (keys ((n, c') :: d)))
     then Raises "ValueError"
     else Returns {| agents := (n, c') :: d;
                     communication_pattern := "sequential";
                     checkpointer := cp;
                     graph := compiled (sequential_wiring n c' d) (Some cp) |}).
Proof.
  intros Hd. pose proof (agents_dict_NoDup (c :: cs)) as Hnd.
  unfold MultiAgentWorkflow_init, MultiAgentWorkflow_build_graph.
  rewrite Hd in *. rewrite build_graph_sequential, bind_Returns.
  unfold compile. cbn zeta. case_decide as Hempty.
  - by rewrite validate_sequential_unreachable.
  - rewrite validate_sequential; [done|].
    apply Forall_forall. by intros x Hx ->.
Qed.

Lemma init_broadcast c cs path n c' d :
  agents_dict (c :: cs) = (n, c') :: d →
  MultiAgentWorkflow_init (c :: cs) "broadcast" path
  = (let cp := if truthy path then default "" path else ":memory:" in
     Returns {| agents := (n, c') :: d;
                communication_pattern := "broadcast";
                checkpointer := cp;
                graph := compiled (broadcast_wiring n c' d) (Some cp) |}).
Proof.
  intros Hd.
  unfold MultiAgentWorkflow_init, MultiAgentWorkflow_build_graph.
  rewrite Hd. rewrite build_graph_broadcast, bind_Returns.
  unfold compile. by rewrite validate_broadcast.
Qed.

(** A graph with an entry point and no node is refused. *)
Lemma init_unknown c cs pattern path :
  pattern ≠ "sequential" → pattern ≠ "broadcast" →
  MultiAgentWorkflow_init (c :: cs) pattern path = Raises "ValueError".
Proof.
  intros Hseq Hbc. destruct (agents_dict_head c cs) as (c' & d & Hd).
  assert (MultiAgentWorkflow_wiring ((name c, c') :: d) pattern
          = Returns (set_entry_point empty_graph (name c))) as Hwiring.
  { unfold MultiAgentWorkflow_wiring. by rewrite !decide_False by done. }
  assert (validate (set_entry_point empty_graph (name c)) = false) as Hvalid.
  { apply not_true_iff_false. intros (_ & Hnodes & _)%validate_spec.
    simpl in Hnodes. apply Forall_cons in Hnodes as [Hin _].
    by apply elem_of_nil in Hin. }
  unfold MultiAgentWorkflow_init, MultiAgentWorkflow_build_graph.
  rewrite Hd, Hwiring, bind_Returns. unfold compile. by rewrite Hvalid.
Qed.

(** C4 (as amended).  Constructing a workflow from an empty list of
    agents fails with [IndexError], whatever the topology.  From a
    non-empty list, the construction fails for every identifier other
    than "sequential" and "broadcast", with the [ValueError] of
    [compile], which is handed a graph with an entry point and no node;
    it never fails under "broadcast", and under "sequential" it fails
    (again with the [ValueError] of [compile]) exactly when an agent
    other than the last has the empty name.  Configurations that share a
    name are no error: they are collapsed into one agent under that
    name, the last such configuration. *)
Theorem MultiAgentWorkflow_init_outcomes :
  (∀ pattern path, MultiAgentWorkflow_init [] pattern path
                   = Raises "IndexError")
  ∧ ∀ c cs pattern path,
      match MultiAgentWorkflow_init (c :: cs) pattern path with
      | Returns w =>
          (pattern = "sequential" ∨ pattern = "broadcast")
          ∧ NoDup (keys (agents w))
          ∧ (∀ n, dict_get (agents w) n
                  = last (filter (λ c', name c' = n) (c :: cs)))
          ∧ nodes (graph w) = agents w
          ∧ entry_point (graph w) = Some (name c)
          ∧ (pattern = "sequential" → "" ∉ removelast (keys (agents w)))
      | Raises e =>
          e = "ValueError"
          ∧ pattern ≠ "broadcast"
          ∧ (pattern = "sequential"
             → "" ∈ removelast (keys (agents_dict (c :: cs))))
      end.
Proof.
  split.
  - intros pattern path.
    unfold MultiAgentWorkflow_init, MultiAgentWorkflow_build_graph,
      MultiAgentWorkflow_wiring.
    simpl. by repeat case_decide.
  - intros c cs pattern path.
    pose proof (agents_dict_NoDup (c :: cs)) as Hnd.
    assert (∀ n, dict_get (agents_dict (c :: cs)) n
                 = last (filter (λ c', name c' = n) (c :: cs))) as Hget.
    { intros n. unfold agents_dict. rewrite agents_dict_fold_get.
      by destruct (last _). }
    destruct (agents_dict_head c cs) as (c' & d & Hd).
    destruct (decide (pattern = "sequential")) as [->|Hseq].
    { rewrite (init_sequential c cs path _ _ _ Hd). cbn zeta.
      rewrite Hd in *. case_decide as Hempty.
      - done.
      - split_and!; [by left | done..]. }
    destruct (decide (pattern = "broadcast")) as [->|Hbc].
    { rewrite (init_broadcast c cs path _ _ _ Hd). cbn zeta.
      rewrite Hd in *. split_and!; [by right | done..]. }
    by rewrite init_unknown.
Qed.

(** Two configurations named "A": the construction succeeds, with one
    agent.  An empty list: the error is [IndexError].  The topology
    "ring": the error is [ValueError]. *)
Lemma MultiAgentWorkflow_init_no_ConfigurationError :
  ¬ NoDup (name <$> [agent "A"; agent "A"])
  ∧ (∃ w, MultiAgentWorkflow_init [agent "A"; agent "A"] "sequential" None
          = Returns w
        ∧ keys (agents w) = ["A"])
  ∧ MultiAgentWorkflow_init [] "sequential" None = Raises "IndexError"
  ∧ MultiAgentWorkflow_init [agent "A"] "ring" None = Raises "ValueError"
  ∧ "IndexError" ≠ "ConfigurationError"
  ∧ "ValueError" ≠ "ConfigurationError".
Proof.
  split_and!.
  - intros Hnd. apply NoDup_cons in Hnd as [Hin _]. apply Hin. left.
  - eexists. split; reflexivity.
  - reflexivity.
  - reflexivity.
  - done.
  - done.
Qed.

(** ** One node step of the run loop *)

Lemma find_index_Some h i l p :
  find_index h i l = Some p → ids h l !! p = Some i.
Proof.
  revert p. induction l as [|e l IH]; intros p; simpl; [done|].
  case_decide as He.
  - intros [= <-]. simpl. by rewrite He.
  - destruct (find_index h i l) as [q|] eqn:Hq; [|done].
    intros [= <-]. simpl. by apply IH.
Qed.

(** A message whose id is present leaves the ids of [merged] as they
    are. *)
Lemma merge_message_ids_present h merged m :
  id_of h m ∈ ids h merged →
  ids h (merge_message h merged m) = ids h merged.
Proof.
  intros Hin. unfold merge_message.
  destruct (find_index h (id_of h m) merged) as [p|] eqn:Hp.
  - apply find_index_Some in Hp. unfold ids in *.
    rewrite list_fmap_insert. by apply list_insert_id.
  - by apply find_index_None in Hp.
Qed.

Lemma merge_ids_present h left right :
  (∀ m, m ∈ right → id_of h m ∈ ids h left) →
  ids h (foldl (merge_message h) left right) = ids h left.
Proof.
  revert left. induction right as [|m right IH]; intros left Hin; [done|].
  simpl. rewrite IH.
  - apply merge_message_ids_present, Hin. left.
  - intros m' Hm'. rewrite merge_message_ids_present by (apply Hin; left).
    apply Hin. by right.
Qed.

Section node_step.
Context (uuid4 : nat → string).
Context (llm_invoke : AgentConfig → list Message.t → Message.t).

(** Whatever the language model answers, a node step makes the history
    one message longer and keeps the metadata. *)
Lemma node_step_length cfg σ state σ' state' :
  node_step uuid4 llm_invoke cfg σ state = (σ', state') →
  length (lists σ' !!! messages state')
    = S (length (lists σ !!! messages state))
  ∧ metadata state' = metadata state.
Proof.
  unfold node_step, SingleAgent_process, reduce_messages. simpl.
  rewrite lookup_total_insert_eq.
  destruct (assign_ids _ _ _ _) as [h k] eqn:Hassign.
  intros [= <- <-]. simpl. rewrite lookup_total_insert_eq.
  split; [|done].
  set (X := lists σ !!! messages state ++ [next σ]).
  assert (ids h (foldl (merge_message h) X X) = ids h X) as Hids.
  { apply merge_ids_present. intros m Hm. by apply list_elem_of_fmap_2. }
  apply (f_equal length) in Hids. unfold ids in Hids.
  rewrite !length_fmap in Hids. rewrite Hids. unfold X.
  rewrite length_app. simpl. lia.
Qed.
End node_step.

(** ** The sequential graph *)

Lemma dict_get_app {V} (d1 d2 : list (string * V)) n :
  dict_get (d1 ++ d2) n
  = match dict_get d1 n with
    | Some v => Some v
    | None => dict_get d2 n
    end.
Proof.
  induction d1 as [|[k v] d1 IH]; simpl; [done|].
  by destruct (decide (k = n)).
Qed.

Lemma dict_get_None {V} (d : list (string * V)) n :
  n ∉ keys d → dict_get d n = None.
Proof.
  induction d as [|[k v] d IH]; [done|].
  change (keys ((k, v) :: d)) with (k :: keys d).
  intros [Hk Hd]%not_elem_of_cons. simpl.
  rewrite decide_False by done. by apply IH.
Qed.

Lemma dict_get_middle {V} (pre : list (string * V)) n c post :
  n ∉ keys pre → dict_get (pre ++ (n, c) :: post) n = Some c.
Proof.
  intros Hpre. rewrite dict_get_app, dict_get_None by done.
  simpl. by rewrite decide_True.
Qed.

Lemma dict_get_prev_edge prev (m n : string) :
  (∀ p, prev = Some p → p ≠ n) →
  dict_get (if truthy prev then [(default "" prev, m)] else []) n = None.
Proof.
  intros Hprev. destruct prev as [p|]; [|done].
  destruct (truthy (Some p)); [|done]. simpl.
  rewrite decide_False; [done|]. by apply Hprev.
Qed.

(** The plain edge out of a node that is not the last one leads to the
    next node. *)
Lemma dict_get_chain_middle prev pre n c n' c' post :
  n ≠ "" → n ∉ keys pre → (∀ p, prev = Some p → p ≠ n) →
  dict_get (chain prev (pre ++ (n, c) :: (n', c') :: post)) n = Some n'.
Proof.
  intros Hn. revert prev. induction pre as [|[m cm] pre IH];
    intros prev Hpre Hprev.
  - rewrite app_nil_l, !chain_cons, truthy_name by done.
    rewrite dict_get_app, dict_get_prev_edge by done.
    simpl. by rewrite decide_True.
  - change (keys ((m, cm) :: pre)) with (m :: keys pre) in Hpre.
    apply not_elem_of_cons in Hpre as [Hm Hpre].
    rewrite <- app_comm_cons, chain_cons.
    rewrite dict_get_app, dict_get_prev_edge by done.
    apply IH; [done|]. by intros p [= <-].
Qed.

(** The plain edges out of a node, in a list of edges with pairwise
    distinct sources. *)
Lemma filter_source (es : list (string * string)) n :
  NoDup (keys es) →
  filter (λ e, e.1 = n) es
  = match dict_get es n with
    | Some n' => [(n, n')]
    | None => []
    end.
Proof.
  induction es as [|[a b] es IH]; [done|].
  change (keys ((a, b) :: es)) with (a :: keys es).
  intros [Hnotin Hnd]%NoDup_cons. simpl dict_get.
  destruct (decide (a = n)) as [->|Hne].
  - rewrite filter_cons_True by done. rewrite IH by done.
    by rewrite dict_get_None.
  - rewrite filter_cons_False by done. by apply IH.
Qed.

(** The graph that the sequential branch builds wires its agents in
    their order. *)
Lemma sequential_graph_follows n0 c0 rest cp pre seg :
  let items := (n0, c0) :: rest in
  let g := compiled (sequential_wiring n0 c0 rest) cp in
  NoDup (keys items) → Forall (λ item, item.1 ≠ "") items →
  items = pre ++ seg → follows g n0 seg.
Proof.
  intros items g Hnd Hnames. revert pre.
  induction seg as [|[n c] seg IH]; intros pre Hsplit; [done|].
  assert (n ∉ keys pre) as Hpre.
  { rewrite Hsplit in Hnd. unfold keys in Hnd. rewrite fmap_app in Hnd.
    apply NoDup_app in Hnd as (_ & Hdisj & _).
    intros Hin. apply (Hdisj n Hin). left. }
  assert (n ≠ "") as Hn.
  { rewrite Hsplit in Hnames. apply Forall_app in Hnames as [_ Hnames].
    by apply Forall_cons in Hnames as [? _]. }
  assert (last (keys items) = Some (default n0 (last (keys rest)))) as Hlast.
  { unfold items. change (keys ((n0, c0) :: rest)) with (n0 :: keys rest).
    rewrite last_cons. by destruct (last (keys rest)). }
  simpl. split_and!.
  - change (dict_get items n = Some c). rewrite Hsplit.
    by apply dict_get_middle.
  - destruct seg as [|[n' c'] seg].
    + rewrite Hsplit in Hlast. unfold keys in Hlast.
      rewrite fmap_app in Hlast.
      change (last (pre.*1 ++ [n]) = Some (default n0 (last (keys rest))))
        in Hlast.
      rewrite last_snoc in Hlast. injection Hlast as <-.
      split; [by rewrite decide_True|].
      change (filter (λ e, e.1 = n) (chain None items) = []).
      rewrite filter_source by by apply chain_sources_NoDup.
      rewrite dict_get_None; [done|]. intros Hin.
      pose proof (elem_of_sublist _ _ _ Hin (chain_sources None items))
        as Hin'.
      rewrite Hsplit in Hin'. unfold keys in Hin'.
      rewrite fmap_app in Hin'. simpl in Hin'.
      rewrite removelast_last in Hin'. done.
    + split.
      * rewrite decide_False; [done|]. intros Heq.
        rewrite Hsplit in Hlast, Hnd. unfold keys in Hlast, Hnd.
        rewrite fmap_app, !fmap_cons in Hlast, Hnd.
        apply NoDup_app in Hnd as (_ & _ & Hnd).
        apply NoDup_cons in Hnd as [Hnotin _].
        rewrite last_app_cons, last_cons_cons in Hlast.
        unfold keys in Heq. rewrite Heq in Hlast.
        apply last_Some_elem_of in Hlast. done.
      * change (filter (λ e, e.1 = n) (chain None items) = [(n, n')]).
        rewrite filter_source by by apply chain_sources_NoDup.
        rewrite Hsplit. by rewrite dict_get_chain_middle.
  - apply (IH (pre ++ [(n, c)])). by rewrite <- app_assoc.
Qed.

(** ** The run loop *)

Lemma if_ext_decide {A} (P Q : Prop) `{!Decision P, !Decision Q} (x y : A) :
  (P ↔ Q) → (if bool_decide P then x else y) = (if bool_decide Q then x else y).
Proof. intros HPQ. by rewrite (bool_decide_ext P Q). Qed.

Arguments step : simpl never.
Arguments node_step : simpl never.

Section run_loop.
Context (uuid4 : nat → string).
Context (llm_invoke : AgentConfig → list Message.t → Message.t).

Lemma steps_halted k g σ state :
  steps uuid4 llm_invoke k g (Halted σ state) = Returns (Halted σ state).
Proof. induction k as [|k IH]; [done|]. simpl. apply IH. Qed.

Lemma steps_add a b g c :
  steps uuid4 llm_invoke (a + b) g c
  = c' ← steps uuid4 llm_invoke a g c; steps uuid4 llm_invoke b g c'.
Proof.
  revert c. induction a as [|a IH]; intros c; [done|].
  simpl. destruct (step uuid4 llm_invoke g c) as [c1|e]; simpl;
    [apply IH | done].
Qed.

Lemma steps_fanout k g ns σ state :
  steps uuid4 llm_invoke k g (Fanout ns σ state)
  = Returns (Fanout ns σ state).
Proof. induction k as [|k IH]; [done|]. simpl. apply IH. Qed.

(** A run that halts within [j] transitions returns the halted state
    under every recursion limit above [j]. *)
Lemma walk_steps j g c σ' state' limit :
  steps uuid4 llm_invoke j g c = Returns (Halted σ' state') →
  j < limit →
  walk uuid4 llm_invoke limit g c = Returns (Halted σ' state').
Proof.
  revert c limit. induction j as [|j IH]; intros c limit Hsteps Hlimit;
    (destruct limit as [|limit]; [lia|]).
  { simpl in Hsteps. by injection Hsteps as ->. }
  destruct c as [n σ state|σ state|ns σ state].
  - simpl in *.
    destruct (step uuid4 llm_invoke g (Running n σ state)) as [c1|e];
      [|done].
    simpl in *. apply IH; [done | lia].
  - rewrite steps_halted in Hsteps. by injection Hsteps as <- <-.
  - by rewrite steps_fanout in Hsteps.
Qed.

(** Where the edges lead, for a node with one plain edge and for a node
    with a conditional edge only. *)
Lemma route_plain g n n' σ state :
  dict_get (conditional_edges g) n = None →
  filter (λ e, e.1 = n) (edges g) = [(n, n')] →
  route g n σ state = Returns [n'].
Proof. intros Hcond Hedge. unfold route. by rewrite Hcond, Hedge. Qed.

Lemma route_conditional g n cond if_true if_false σ state :
  dict_get (conditional_edges g) n = Some (cond, if_true, if_false) →
  filter (λ e, e.1 = n) (edges g) = [] →
  route g n σ state
  = (b ← cond σ state;
     Returns (node_of (if b : bool then if_true else if_false))).
Proof.
  intros Hcond Hedge. unfold route. rewrite Hcond, Hedge.
  destruct (cond σ state) as [b|e]; [|done]. simpl.
  rewrite app_nil_r. by destruct (if b then if_true else if_false).
Qed.

(** From a node of a wired segment the run visits the rest of the
    segment, each node making the history one message longer, and
    consults the continuation predicate after the last node only. *)
Lemma sequential_segment g first seg N :
  follows g first seg →
  ∀ n c rest σ state,
    seg = (n, c) :: rest →
    default (PyInt 20) (metadata state !! "max_turns") = PyInt N →
    let len := length (lists σ !!! messages state) in
    ∃ σ' state',
      steps uuid4 llm_invoke (length seg) g (Running n σ state)
      = Returns (if bool_decide (Z.of_nat (len + length seg) < N)%Z
                 then Running first σ' state' else Halted σ' state')
      ∧ length (lists σ' !!! messages state') = len + length seg
      ∧ metadata state' = metadata state.
Proof.
  induction seg as [|[n0 c0] seg IH]; [done|].
  intros (Hnode & Hroute & Hrest) n c rest σ state [= <- <- <-] Hmax len.
  destruct (node_step uuid4 llm_invoke c0 σ state) as [σ1 state1] eqn:Hstep.
  destruct (node_step_length _ _ _ _ _ _ _ Hstep) as [Hlen Hmeta].
  destruct seg as [|[n' c'] seg].
  - exists σ1, state1. split_and!; [|simpl; lia|done].
    destruct Hroute as [Hcond Hnone].
    simpl. unfold step. rewrite Hnode, Hstep.
    rewrite (route_conditional _ _ _ _ _ _ _ Hcond Hnone).
    unfold MultiAgentWorkflow_should_continue.
    rewrite Hmeta, Hmax, Hlen. simpl.
    replace (bool_decide (Z.of_nat (len + 1) < N)%Z)
      with (bool_decide (Z.of_nat (S len) < N)%Z);
      [by destruct (bool_decide _)|].
    apply bool_decide_ext. lia.
  - destruct Hroute as [Hcond Hedge].
    destruct (IH Hrest n' c' seg σ1 state1 eq_refl)
      as (σ' & state' & Hsteps & Hlen' & Hmeta').
    { by rewrite Hmeta. }
    exists σ', state'. split_and!.
    + change (steps uuid4 llm_invoke (length ((n0, c0) :: (n', c') :: seg)) g
                (Running n0 σ state))
        with (c1 ← step uuid4 llm_invoke g (Running n0 σ state);
              steps uuid4 llm_invoke (length ((n', c') :: seg)) g c1).
      unfold step at 1. rewrite Hnode, Hstep.
      rewrite (route_plain _ _ _ _ _ Hcond Hedge), !bind_Returns, Hsteps.
      f_equal. rewrite Hlen. apply if_ext_decide. simpl. lia.
    + rewrite Hlen', Hlen. simpl. lia.
    + by rewrite Hmeta'.
Qed.

(** Round after round until the predicate says stop: the run halts at
    the end of the first round at which the history has reached [N]. *)
Lemma sequential_rounds g first c0 rest N m :
  follows g first ((first, c0) :: rest) →
  ∀ σ state,
    default (PyInt 20) (metadata state !! "max_turns") = PyInt N →
    let len := length (lists σ !!! messages state) in
    let k := S (length rest) in
    Z.to_nat (N - Z.of_nat len) ≤ m →
    ∃ r σ' state',
      1 ≤ r
      ∧ steps uuid4 llm_invoke (k * r) g (Running first σ state)
        = Returns (Halted σ' state')
      ∧ length (lists σ' !!! messages state') = len + k * r
      ∧ (N ≤ Z.of_nat (len + k * r))%Z
      ∧ (r = 1 ∨ (Z.of_nat (len + k * (r - 1)) < N)%Z).
Proof.
  intros Hfollows. induction m as [|m IH]; intros σ state Hmax len k Hm.
  - destruct (sequential_segment g first _ N Hfollows first c0 rest σ state
                eq_refl Hmax) as (σ' & state' & Hsteps & Hlen & _).
    fold len in Hsteps, Hlen. change (length ((first, c0) :: rest)) with k in *.
    rewrite bool_decide_false in Hsteps by lia.
    exists 1, σ', state'. rewrite Nat.mul_1_r.
    split_and!; [lia | done | lia | lia | by left].
  - destruct (sequential_segment g first _ N Hfollows first c0 rest σ state
                eq_refl Hmax) as (σ1 & state1 & Hsteps & Hlen & Hmeta).
    fold len in Hsteps, Hlen. change (length ((first, c0) :: rest)) with k in *.
    destruct (decide (Z.of_nat (len + k) < N)%Z) as [Hlt|Hge].
    + rewrite bool_decide_true in Hsteps by done.
      destruct (IH σ1 state1) as (r & σ' & state' & Hr & Hj & Hlen' & HN & Hmin).
      { by rewrite Hmeta. }
      { rewrite Hlen. lia. }
      exists (S r), σ', state'. split_and!.
      * lia.
      * replace (k * S r) with (k + k * r) by lia.
        by rewrite steps_add, Hsteps, bind_Returns.
      * rewrite Hlen', Hlen. fold k. lia.
      * rewrite Hlen in HN. fold k in HN.
        replace (len + k * S r) with (len + k + k * r) by lia. done.
      * right. rewrite Hlen in Hmin. fold k in Hmin.
        replace (S r - 1) with r by lia.
        destruct Hmin as [->|Hmin]; [by rewrite Nat.mul_1_r|].
        replace (len + k * r) with (len + k + k * (r - 1)) by nia. done.
    + rewrite bool_decide_false in Hsteps by done.
      exists 1, σ1, state1. rewrite Nat.mul_1_r.
      split_and!; [lia | done | lia | lia | by left].
Qed.

(** Before the last node of a wired segment has run, the run is still
    going: no predicate is consulted on the way, whatever the
    metadata. *)
Lemma sequential_prefix g first seg :
  follows g first seg →
  ∀ j n c rest σ state,
    seg = (n, c) :: rest →
    j < length seg →
    ∃ n' σ' state',
      steps uuid4 llm_invoke j g (Running n σ state)
      = Returns (Running n' σ' state')
      ∧ length (lists σ' !!! messages state')
        = length (lists σ !!! messages state) + j
      ∧ metadata state' = metadata state.
Proof.
  induction seg as [|[n0 c0] seg IH]; [done|].
  intros (Hnode & Hroute & Hrest) j n c rest σ state [= <- <- <-] Hj.
  destruct j as [|j]; [exists n0, σ, state; split_and!; [done | lia | done]|].
  destruct seg as [|[n' c'] seg]; [simpl in Hj; lia|].
  destruct Hroute as [Hcond Hedge].
  destruct (node_step uuid4 llm_invoke c0 σ state) as [σ1 state1] eqn:Hstep.
  destruct (node_step_length _ _ _ _ _ _ _ Hstep) as [Hlen Hmeta].
  destruct (IH Hrest j n' c' seg σ1 state1 eq_refl)
    as (n'' & σ' & state' & Hsteps & Hlen' & Hmeta').
  { simpl in Hj |- *. lia. }
  exists n'', σ', state'. split_and!.
  - change (steps uuid4 llm_invoke (S j) g (Running n0 σ state))
      with (c1 ← step uuid4 llm_invoke g (Running n0 σ state);
            steps uuid4 llm_invoke j g c1).
    unfold step at 1. rewrite Hnode, Hstep.
    by rewrite (route_plain _ _ _ _ _ Hcond Hedge), !bind_Returns.
  - rewrite Hlen', Hlen. lia.
  - by rewrite Hmeta'.
Qed.

(** With a string under ["max_turns"] the predicate fails when it is
    consulted, after the last node of the segment. *)
Lemma sequential_segment_TypeError g first seg s :
  follows g first seg →
  ∀ n c rest σ state,
    seg = (n, c) :: rest →
    metadata state !! "max_turns" = Some (PyStr s) →
    steps uuid4 llm_invoke (length seg) g (Running n σ state)
    = Raises "TypeError".
Proof.
  induction seg as [|[n0 c0] seg IH]; [done|].
  intros (Hnode & Hroute & Hrest) n c rest σ state [= <- <- <-] Hmax.
  destruct (node_step uuid4 llm_invoke c0 σ state) as [σ1 state1] eqn:Hstep.
  destruct (node_step_length _ _ _ _ _ _ _ Hstep) as [_ Hmeta].
  change (steps uuid4 llm_invoke (length ((n0, c0) :: seg)) g
            (Running n0 σ state))
    with (c1 ← step uuid4 llm_invoke g (Running n0 σ state);
          steps uuid4 llm_invoke (length seg) g c1).
  unfold step at 1. rewrite Hnode, Hstep.
  destruct seg as [|[n' c'] seg].
  - destruct Hroute as [Hcond Hnone].
    rewrite (route_conditional _ _ _ _ _ _ _ Hcond Hnone).
    unfold MultiAgentWorkflow_should_continue. by rewrite Hmeta, Hmax.
  - destruct Hroute as [Hcond Hedge].
    rewrite (route_plain _ _ _ _ _ Hcond Hedge), !bind_Returns.
    apply (IH Hrest n' c' seg σ1 state1 eq_refl). by rewrite Hmeta.
Qed.

(** The configuration in which a run starts: at the entry point, with a
    history of one message and the metadata of the caller. *)
Lemma run_seed_spec w n0 initial_message meta σ :
  entry_point (graph w) = Some n0 →
  ∃ σ0 state0,
    run_seed uuid4 w initial_message meta σ = Returns (Running n0 σ0 state0)
    ∧ length (lists σ0 !!! messages state0) = 1
    ∧ metadata state0 = default ∅ meta.
Proof.
  intros Hentry. unfold run_seed, initial_state, seed, reduce_messages.
  simpl. rewrite Hentry, lookup_total_insert_eq. simpl.
  destruct (truthy _); simpl; eexists _, _;
    (split_and!; [reflexivity | simpl; by rewrite lookup_total_insert_eq | done]).
Qed.

End run_loop.

Lemma agents_dict_fold_names d cs :
  Forall (λ n, n ≠ "") (keys d) → Forall (λ c, name c ≠ "") cs →
  Forall (λ n, n ≠ "")
         (keys (foldl (λ d cfg, dict_set d (name cfg) cfg) d cs)).
Proof.
  revert d. induction cs as [|c cs IH]; intros d Hd Hcs; [done|].
  apply Forall_cons in Hcs as [Hc Hcs]. simpl. apply IH; [|done].
  rewrite keys_dict_set. case_decide; [done|].
  apply Forall_app. split; [done|]. by apply Forall_singleton.
Qed.

Lemma agents_dict_names cs :
  Forall (λ c, name c ≠ "") cs →
  Forall (λ item, item.1 ≠ "") (agents_dict cs).
Proof.
  intros Hcs.
  pose proof (agents_dict_fold_names [] cs (Forall_nil_2 _) Hcs) as Hkeys.
  unfold keys in Hkeys. rewrite Forall_fmap in Hkeys. exact Hkeys.
Qed.

(** C2 (as amended).  The graph of a sequential workflow consults the
    continuation predicate at the end of each round only.  With [k]
    agents (names non-empty; configurations that share a name count
    once) and [max_turns = N], whatever the language model answers, the
    execution of the graph from the seeded state halts after a whole
    number [rounds >= 1] of rounds, that is after [k * rounds] node
    steps, with [1 + k * rounds] messages in the history, where [rounds]
    is the least such number with [1 + k * rounds >= N]: the history has
    exactly [N] messages only when [N - 1] is a positive multiple of
    [k]. *)
Theorem sequential_run_halts_after_full_rounds
    uuid4 llm_invoke cs path N w initial_message meta σ :
  Forall (λ c, name c ≠ "") cs →
  default (PyInt 20) (default ∅ meta !! "max_turns") = PyInt N →
  MultiAgentWorkflow_init cs "sequential" path = Returns w →
  let k := length (agents w) in
  ∃ rounds σ' state',
    1 ≤ rounds
    ∧ (N ≤ Z.of_nat (1 + k * rounds))%Z
    ∧ (rounds = 1 ∨ (Z.of_nat (1 + k * (rounds - 1)) < N)%Z)
    ∧ (c0 ← run_seed uuid4 w initial_message meta σ;
       steps uuid4 llm_invoke (k * rounds) (graph w) c0)
      = Returns (Halted σ' state')
    ∧ length (history σ' state') = 1 + k * rounds.
Proof.
  intros Hnames Hmax Hinit k. destruct cs as [|c cs].
  { unfold MultiAgentWorkflow_init, MultiAgentWorkflow_build_graph,
      MultiAgentWorkflow_wiring in Hinit. done. }
  pose proof (agents_dict_NoDup (c :: cs)) as Hnd.
  pose proof (agents_dict_names (c :: cs) Hnames) as Hnm.
  destruct (agents_dict_head c cs) as (c' & d & Hd).
  rewrite (init_sequential c cs path _ _ _ Hd) in Hinit. cbn zeta in Hinit.
  rewrite Hd in *. case_decide; [done|].
  injection Hinit as <-. unfold k. cbn [agents graph].
  set (cp := if truthy path then default "" path else ":memory:").
  pose proof (sequential_graph_follows (name c) c' d (Some cp) [] _ Hnd Hnm
                eq_refl) as Hfollows.
  set (g := compiled (sequential_wiring (name c) c' d) (Some cp)) in *.
  set (w := {| agents := (name c, c') :: d; graph := g |}).
  destruct (run_seed_spec uuid4 w (name c) initial_message meta σ eq_refl)
    as (σ0 & state0 & Hseed & Hlen0 & Hmeta0).
  destruct (sequential_rounds uuid4 llm_invoke g (name c) c' d N
              (Z.to_nat (N - 1)) Hfollows σ0 state0)
    as (r & σ' & state' & Hr & Hj & Hlen & HN & Hmin).
  { by rewrite Hmeta0. }
  { rewrite Hlen0. lia. }
  rewrite Hlen0 in Hlen, HN, Hmin.
  exists r, σ', state'. split_and!; [done..| |].
  - by rewrite Hseed, bind_Returns.
  - unfold history, view. by rewrite length_fmap.
Qed.

(** Agents A, B, C in sequence, [max_turns = 4], seed "start": the
    execution of the graph halts after one round with the history
    [start, A, B, C]. *)
Lemma sequential_run_ABC_4 :
  halted_with (demo_run echo ["A"; "B"; "C"] "sequential" 4 3)
  = Some ["start"; "A"; "B"; "C"]
  ∧ MultiAgentWorkflow_init (agent <$> ["A"; "B"; "C"]) "sequential" None
    = Returns abc_workflow
  ∧ ∃ rounds σ' state',
      1 ≤ rounds
      ∧ (4 ≤ Z.of_nat (1 + length (agents abc_workflow) * rounds))%Z
      ∧ (rounds = 1
         ∨ (Z.of_nat (1 + length (agents abc_workflow) * (rounds - 1)) < 4)%Z)
      ∧ (c0 ← run_seed token abc_workflow "start" (max_turns 4) empty_store;
         steps token echo (length (agents abc_workflow) * rounds)
               (graph abc_workflow) c0)
        = Returns (Halted σ' state')
      ∧ length (history σ' state')
        = 1 + length (agents abc_workflow) * rounds.
Proof.
  assert (MultiAgentWorkflow_init (agent <$> ["A"; "B"; "C"]) "sequential"
                                  None
          = Returns abc_workflow) as Hinit by (vm_compute; reflexivity).
  split; [vm_compute; reflexivity|]. split; [exact Hinit|].
  apply (sequential_run_halts_after_full_rounds token echo
           (agent <$> ["A"; "B"; "C"]) None 4 abc_workflow "start"
           (max_turns 4) empty_store).
  - repeat constructor; done.
  - reflexivity.
  - exact Hinit.
Defined.

(** The same agents with [max_turns = 3]: when the history has reached
    three messages the run has not halted and C is about to run; it
    halts with four messages, not three. *)
Lemma sequential_run_ABC_3 :
  observe (demo_run echo ["A"; "B"; "C"] "sequential" 3 2)
  = Returns (Some "C", ["start"; "A"; "B"],
             [Some "u"; Some "uu"; Some "uuu"])
  ∧ halted_with (demo_run echo ["A"; "B"; "C"] "sequential" 3 2) = None
  ∧ halted_with (demo_run echo ["A"; "B"; "C"] "sequential" 3 3)
    = Some ["start"; "A"; "B"; "C"].
Proof. split_and!; vm_compute; reflexivity. Qed.

(** ** The broadcast graph *)

Section broadcast.
Context (uuid4 : nat → string).
Context (llm_invoke : AgentConfig → list Message.t → Message.t).

(** X and Y pass control to each other for ever, each node step making
    the history one message longer. *)
Lemma broadcast_XY_steps g j :
  nodes g = [("X", agent "X"); ("Y", agent "Y")] →
  edges g = [("X", "Y"); ("Y", "X")] →
  conditional_edges g = [] →
  ∀ n σ state,
    n = "X" ∨ n = "Y" →
    ∃ n' σ' state',
      steps uuid4 llm_invoke j g (Running n σ state)
      = Returns (Running n' σ' state')
      ∧ (n' = "X" ∨ n' = "Y")
      ∧ length (lists σ' !!! messages state')
        = length (lists σ !!! messages state) + j.
Proof.
  intros Hnodes Hedges Hcond.
  induction j as [|j IH]; intros n σ state Hn.
  { exists n, σ, state. split_and!; [done | done | lia]. }
  destruct (node_step uuid4 llm_invoke (agent n) σ state) as [σ1 state1]
    eqn:Hstep.
  destruct (node_step_length _ _ _ _ _ _ _ Hstep) as [Hlen _].
  assert (∃ n1, (n1 = "X" ∨ n1 = "Y")
                ∧ step uuid4 llm_invoke g (Running n σ state)
                  = Returns (Running n1 σ1 state1)) as (n1 & Hn1 & Hone).
  { unfold step, route. rewrite Hnodes, Hedges, Hcond.
    destruct Hn as [-> | ->]; simpl; rewrite Hstep; simpl.
    - exists "Y". split; [by right | done].
    - exists "X". split; [by left | done]. }
  destruct (IH n1 σ1 state1 Hn1) as (n' & σ' & state' & Hsteps & Hn' & Hlen').
  exists n', σ', state'. split_and!; [|done|].
  - simpl. by rewrite Hone, bind_Returns.
  - rewrite Hlen', Hlen. lia.
Qed.

(** C3.  The graph that the broadcast branch builds for the agents X and
    Y has the two plain edges X -> Y and Y -> X and no conditional edge:
    the continuation predicate is wired nowhere, and whatever the
    metadata and the language model, the execution of the graph from the
    seeded state never halts: after any number [j] of node steps the
    history holds [1 + j] messages and a node is about to run. *)
Theorem broadcast_run_never_consults_policy path initial_message meta σ :
  ∃ w, MultiAgentWorkflow_init [agent "X"; agent "Y"] "broadcast" path
       = Returns w
     ∧ edges (graph w) = [("X", "Y"); ("Y", "X")]
     ∧ conditional_edges (graph w) = []
     ∧ ∀ j, ∃ n σ' state',
         (c0 ← run_seed uuid4 w initial_message meta σ;
          steps uuid4 llm_invoke j (graph w) c0)
         = Returns (Running n σ' state')
         ∧ length (history σ' state') = 1 + j.
Proof.
  eexists. split; [reflexivity|]. split_and!; [reflexivity..|].
  intros j.
  edestruct (run_seed_spec uuid4) as (σ0 & state0 & -> & Hlen0 & _);
    [reflexivity|].
  rewrite bind_Returns.
  match goal with
  | |- context [steps uuid4 llm_invoke j ?g (Running ?n0 ?s0 ?st0)] =>
      destruct (broadcast_XY_steps g j eq_refl eq_refl eq_refl n0 s0 st0
                  (or_introl eq_refl))
        as (n & σ' & state' & -> & _ & Hlen)
  end.
  exists n, σ', state'. split; [done|].
  unfold history, view. rewrite length_fmap, Hlen, Hlen0. lia.
Qed.
End broadcast.

(** X and Y in broadcast, [max_turns = 2]: after three node steps the
    history holds four messages and the run is about to execute Y. *)
Lemma broadcast_XY_trace :
  observe (demo_run echo ["X"; "Y"] "broadcast" 2 3)
  = Returns (Some "Y", ["start"; "X"; "Y"; "X"],
             [Some "u"; Some "uu"; Some "uuu"; Some "uuuu"]).
Proof. vm_compute. reflexivity. Qed.

(** ** Uniqueness of the ids along a run *)

Lemma ids_agree h h' l :
  (∀ r, r ∈ l → h' !!! r = h !!! r) → ids h' l = ids h l.
Proof.
  intros Hagree. apply list_fmap_ext. intros i r Hr. unfold id_of.
  rewrite Hagree; [done|]. by eapply list_elem_of_lookup_2.
Qed.

Lemma ids_view h l : Message.id <$> view h l = ids h l.
Proof. unfold view, ids. by rewrite <- list_fmap_compose. Qed.

Lemma ids_snoc h l r : ids h (l ++ [r]) = ids h l ++ [id_of h r].
Proof. unfold ids. by rewrite fmap_app. Qed.

Section unique_ids.
Context (uuid4 : nat → string).
Context (llm_invoke : AgentConfig → list Message.t → Message.t).
Context (uuid4_inj : Inj (=) (=) uuid4).
Context (uuid4_truthy : ∀ n, uuid4 n ≠ "").
Context (llm_fresh : llm_ids_fresh uuid4 llm_invoke).

(** The history after a list [L] of messages with ids has received a new
    message object [r] whose id is fresh for [L]. *)
Lemma history_ok_snoc (h : objects) L r k nxt l lsts :
  NoDup (ids h L) →
  Forall (λ x, truthy (id_of h x) = true) L →
  Forall (λ x, x < r) L →
  fresh_for uuid4 h k L →
  truthy (id_of h r) = true →
  id_of h r ∉ ids h L →
  (∀ j, k ≤ j → id_of h r ≠ Some (uuid4 j)) →
  r < nxt →
  history_ok uuid4
    {| msgs := h; lists := <[l := L ++ [r]]> lsts; next := nxt; drawn := k |}
    {| messages := l; metadata := ∅ |}.
Proof.
  intros Hnd Htr Hlt Hfresh Hr Hnew Hrfresh Hnxt.
  unfold history_ok. simpl. rewrite lookup_total_insert_eq. split_and!.
  - rewrite ids_snoc. apply NoDup_app. split_and!; [done | | apply NoDup_singleton].
    intros i Hi ->%list_elem_of_singleton. done.
  - apply Forall_app. split; [done|]. by apply Forall_singleton.
  - apply Forall_app. split; [|by apply Forall_singleton].
    eapply Forall_impl; [exact Hlt|]. simpl. lia.
  - intros j Hj. rewrite ids_snoc. intros [Hin|Hin%list_elem_of_singleton]%elem_of_app.
    + by apply (Hfresh j).
    + by apply (Hrfresh j).
Qed.

Lemma history_ok_metadata σ l m1 m2 :
  history_ok uuid4 σ {| messages := l; metadata := m1 |} →
  history_ok uuid4 σ {| messages := l; metadata := m2 |}.
Proof. done. Qed.

(** A node step keeps the invariant, provided the language model's
    response brings no id that is in use. *)
Lemma node_step_ok cfg σ state σ' state' :
  history_ok uuid4 σ state →
  node_step uuid4 llm_invoke cfg σ state = (σ', state') →
  history_ok uuid4 σ' state'.
Proof.
  intros (Hnd & Htr & Hlt & Hfresh).
  unfold node_step, SingleAgent_process, reduce_messages. simpl.
  rewrite lookup_total_insert_eq.
  set (L := lists σ !!! messages state) in *.
  set (r := next σ) in *.
  set (resp := llm_invoke cfg _).
  set (h1 := <[r := resp]> (msgs σ)).
  assert (∀ x, x ∈ L → x ≠ r) as Hne.
  { intros x Hx ->. eapply Forall_forall in Hlt; [|done]. lia. }
  assert (∀ x, x ∈ L → h1 !!! x = msgs σ !!! x) as Hh1.
  { intros x Hx. unfold h1. rewrite lookup_total_insert_ne; [done|].
    intros Heq. by apply (Hne x). }
  assert (id_of h1 r = Message.id resp) as Hidr.
  { unfold id_of, h1. by rewrite lookup_total_insert_eq. }
  assert (ids h1 L = ids (msgs σ) L) as HidsL by by apply ids_agree.
  assert (Forall (λ x, truthy (id_of h1 x) = true) L) as Htr1.
  { apply Forall_forall. intros x Hx. unfold id_of. rewrite Hh1 by done.
    by eapply Forall_forall in Htr. }
  rewrite assign_ids_app, (assign_ids_all_truthy uuid4 h1 L _ Htr1).
  simpl. destruct (truthy (id_of h1 r)) eqn:Htruthy.
  - intros [= <- <-].
    rewrite <- (app_nil_r (L ++ [r])) at 2.
    assert (NoDup (ids h1 (L ++ [r]))) as Hnd1.
    { rewrite ids_snoc, HidsL. apply NoDup_app.
      split_and!; [done | | apply NoDup_singleton].
      intros i Hi ->%list_elem_of_singleton. rewrite Hidr in *.
      destruct (llm_fresh cfg
                  (Message.mk SystemMessage (system_message cfg) None
                     :: view (msgs σ) L)) as [Hno|[Hnew _]].
      - fold resp in Hno. congruence.
      - fold resp in Hnew. apply Hnew. rewrite fmap_cons, ids_view.
        by right. }
    rewrite merge_fixpoint; [|done | by rewrite app_nil_r].
    rewrite app_nil_r. apply history_ok_metadata with (m1 := ∅).
    apply history_ok_snoc; try done.
    + by rewrite HidsL.
    + intros j Hj. rewrite HidsL. by apply Hfresh.
    + rewrite ids_snoc in Hnd1. apply NoDup_app in Hnd1 as (_ & Hdisj & _).
      intros Hin. apply (Hdisj _ Hin). by apply list_elem_of_singleton.
    + intros j _. rewrite Hidr.
      destruct (llm_fresh cfg
                  (Message.mk SystemMessage (system_message cfg) None
                     :: view (msgs σ) L)) as [Hno|[_ Hnotoken]].
      * fold resp in Hno. rewrite Hidr in Htruthy. congruence.
      * apply Hnotoken.
    + lia.
  - set (h2 := <[r := Message.set_id (h1 !!! r) (uuid4 (drawn σ))]> h1).
    intros [= <- <-].
    assert (∀ x, x ∈ L → h2 !!! x = msgs σ !!! x) as Hh2.
    { intros x Hx. unfold h2. rewrite lookup_total_insert_ne; [by apply Hh1|].
      intros Heq. by apply (Hne x). }
    assert (id_of h2 r = Some (uuid4 (drawn σ))) as Hidr2.
    { unfold id_of, h2. by rewrite lookup_total_insert_eq. }
    assert (ids h2 L = ids (msgs σ) L) as HidsL2 by by apply ids_agree.
    assert (id_of h2 r ∉ ids h2 L) as Hnew.
    { rewrite Hidr2, HidsL2. by apply Hfresh. }
    rewrite <- (app_nil_r (L ++ [r])) at 2.
    rewrite merge_fixpoint; [|done |].
    2:{ rewrite app_nil_r, ids_snoc. apply NoDup_app.
        split_and!; [by rewrite HidsL2 | | apply NoDup_singleton].
        intros i Hi ->%list_elem_of_singleton. done. }
    rewrite app_nil_r. apply history_ok_metadata with (m1 := ∅).
    apply history_ok_snoc; try done.
    + by rewrite HidsL2.
    + apply Forall_forall. intros x Hx. unfold id_of. rewrite Hh2 by done.
      by eapply Forall_forall in Htr.
    + intros j Hj. rewrite HidsL2. apply Hfresh. lia.
    + rewrite Hidr2. by apply truthy_name.
    + intros j Hj. rewrite Hidr2. intros [= Heq]. apply uuid4_inj in Heq. lia.
    + lia.
Qed.

(** A run starts from a state that satisfies the invariant. *)
Lemma run_seed_ok w initial_message meta σ c0 :
  run_seed uuid4 w initial_message meta σ = Returns c0 →
  history_ok uuid4 (config_store c0) (config_state c0).
Proof.
  unfold run_seed, initial_state, seed, reduce_messages. simpl.
  rewrite !lookup_total_insert_eq. simpl.
  set (seeded := Message.mk HumanMessage initial_message None).
  assert (id_of (<[next σ:=seeded]> (msgs σ)) (next σ) = None) as ->.
  { unfold id_of. by rewrite lookup_total_insert_eq. }
  simpl. rewrite lookup_total_insert_eq.
  destruct (entry_point (graph w)) as [n|]; [|done].
  intros [= <-]. simpl.
  change (foldl _ [] [next σ]) with ([] ++ [next σ]).
  apply history_ok_metadata with (m1 := ∅).
  apply history_ok_snoc; try done.
  - constructor.
  - intros j _. apply not_elem_of_nil.
  - unfold id_of. rewrite lookup_total_insert_eq. by apply truthy_set_id.
  - apply not_elem_of_nil.
  - intros j Hj. unfold id_of. rewrite lookup_total_insert_eq. simpl.
    intros [= Heq]. apply uuid4_inj in Heq. lia.
  - lia.
Qed.

Lemma step_ok g c c' :
  history_ok uuid4 (config_store c) (config_state c) →
  step uuid4 llm_invoke g c = Returns c' →
  history_ok uuid4 (config_store c') (config_state c').
Proof.
  destruct c as [n σ state|σ state|ns σ state]; unfold step; simpl.
  - intros Hok. destruct (dict_get (nodes g) n) as [cfg|]; [|done].
    destruct (node_step uuid4 llm_invoke cfg σ state) as [σ1 state1] eqn:Hstep.
    pose proof (node_step_ok _ _ _ _ _ Hok Hstep) as Hok1.
    destruct (route g n σ1 state1) as [[|n' [|n'' ns]]|e]; simpl; [..|done];
      by intros [= <-].
  - by intros Hok [= <-].
  - by intros Hok [= <-].
Qed.

Lemma steps_ok k g c c' :
  history_ok uuid4 (config_store c) (config_state c) →
  steps uuid4 llm_invoke k g c = Returns c' →
  history_ok uuid4 (config_store c') (config_state c').
Proof.
  revert c. induction k as [|k IH]; intros c Hok.
  - by intros [= <-].
  - simpl. destruct (step uuid4 llm_invoke g c) as [c1|e] eqn:Hstep; [|done].
    simpl. apply IH. by eapply step_ok.
Qed.
End unique_ids.


Lemma echo_ids_fresh uuid4 : llm_ids_fresh uuid4 echo.
Proof. intros cfg prompt. by left. Qed.



(** * Further properties of the code *)

(** ** [reduce_messages]: what it changes and what it keeps *)

(** What the first loop does to an object, with no assumption on the
    token generator: nothing, or it gives an id to a message of the batch
    that had none. *)
Lemma assign_ids_effect uuid4 h right k r :
  let '(h', k') := assign_ids uuid4 h right k in
  k ≤ k' ≤ k + length right
  ∧ (h' !!! r = h !!! r
     ∨ (r ∈ right ∧ truthy (id_of h r) = false
        ∧ ∃ j, k ≤ j < k'
            ∧ h' !!! r = Message.set_id (h !!! r) (uuid4 j))).
Proof.
  revert h k. induction right as [|r0 right IH]; intros h k.
  { simpl. split; [lia | by left]. }
  simpl. destruct (truthy (id_of h r0)) eqn:Hr0.
  - specialize (IH h k). destruct (assign_ids uuid4 h right k) as [h' k'].
    destruct IH as [Hk [Hsame|(Hin & Hno & j & Hj & Hset)]].
    + split; [lia | by left].
    + split; [lia|]. right. split_and!; [by right | done |]. by exists j.
  - set (h1 := <[r0:=Message.set_id (h !!! r0) (uuid4 k)]> h).
    specialize (IH h1 (S k)).
    destruct (assign_ids uuid4 h1 right (S k)) as [h' k'].
    destruct IH as [Hk IH]. split; [lia|].
    destruct (decide (r = r0)) as [->|Hne].
    + right. split_and!; [left | done |].
      assert (h1 !!! r0 = Message.set_id (h !!! r0) (uuid4 k)) as Hr0'.
      { unfold h1. by rewrite lookup_total_insert_eq. }
      destruct IH as [Hsame|(_ & _ & j & Hj & Hset)].
      * exists k. split; [lia|]. by rewrite Hsame.
      * exists j. split; [lia|]. by rewrite Hset, Hr0'.
    + assert (h1 !!! r = h !!! r) as Hother.
      { unfold h1. by rewrite lookup_total_insert_ne. }
      destruct IH as [Hsame|(Hin & Hno & j & Hj & Hset)].
      * left. by rewrite Hsame.
      * right. unfold id_of in *. rewrite Hother in Hno, Hset.
        split_and!; [by right | done |]. exists j. split; [lia | done].
Qed.

(** X1.  [reduce_messages] modifies nothing but the ids of incoming
    messages that lack one: every message object is left as it was, or it
    is a message of the incoming batch that had no id and now carries a
    token drawn during the call, its type and content unchanged.  At most
    one token is drawn per incoming message. *)
Theorem reduce_messages_only_assigns_ids uuid4 h left right k r :
  let '(h', _, k') := reduce_messages uuid4 h left right k in
  k ≤ k' ≤ k + length right
  ∧ (h' !!! r = h !!! r
     ∨ (r ∈ right ∧ truthy (id_of h r) = false
        ∧ ∃ j, k ≤ j < k'
            ∧ h' !!! r = Message.set_id (h !!! r) (uuid4 j))).
Proof.
  unfold reduce_messages.
  pose proof (assign_ids_effect uuid4 h right k r) as Heffect.
  by destruct (assign_ids uuid4 h right k) as [h' k'].
Qed.

Lemma merge_prefix_ids h left right :
  ids h (take (length left) (foldl (merge_message h) left right))
  = ids h left.
Proof.
  revert right. induction left as [|e left IH]; intros right; [done|].
  rewrite merge_cons.
  change (ids h (replacement h right e
                 :: take (length left)
                      (foldl (merge_message h) left
                         (filter (λ m, id_of h m ≠ id_of h e) right)))
          = id_of h e :: ids h left).
  change (ids h (?x :: ?l)) with (id_of h x :: ids h l).
  by rewrite replacement_id, IH.
Qed.

(** X2.  Whatever ids the two lists hold (duplicates included),
    [reduce_messages] never drops or moves an existing entry: the result
    is at least as long as the existing list and, position by position,
    its first entries carry the ids of the existing entries. *)
Theorem reduce_messages_keeps_positions uuid4 h left right k :
  let '(h', merged, _) := reduce_messages uuid4 h left right k in
  length left ≤ length merged
  ∧ ids h' (take (length left) merged) = ids h' left.
Proof.
  unfold reduce_messages. destruct (assign_ids uuid4 h right k) as [h' k'].
  split; [apply merge_length_ge | apply merge_prefix_ids].
Qed.

Lemma merge_message_ids h merged m i :
  i ∈ ids h (merge_message h merged m) ↔ i ∈ ids h merged ∨ i = id_of h m.
Proof.
  destruct (decide (id_of h m ∈ ids h merged)) as [Hin|Hnew].
  - rewrite merge_message_ids_present by done. split; [by left|].
    by intros [?| ->].
  - unfold merge_message. apply find_index_None in Hnew as Hnone.
    rewrite Hnone, ids_snoc, elem_of_app, list_elem_of_singleton. done.
Qed.

Lemma merge_ids h left right i :
  i ∈ ids h (foldl (merge_message h) left right)
  ↔ i ∈ ids h left ∨ i ∈ ids h right.
Proof.
  revert left. induction right as [|m right IH]; intros left.
  - simpl. split; [by left|]. by intros [?|?%elem_of_nil].
  - simpl. rewrite IH, merge_message_ids.
    change (ids h (m :: right)) with (id_of h m :: ids h right).
    rewrite elem_of_cons. tauto.
Qed.

(** X3.  [reduce_messages] invents nothing and loses no id: every entry of
    the result is an entry of the existing list or of the incoming batch,
    and the ids found in the result are exactly the ids of the two
    lists. *)
Theorem reduce_messages_same_ids uuid4 h left right k :
  let '(h', merged, _) := reduce_messages uuid4 h left right k in
  (∀ m, m ∈ merged → m ∈ left ∨ m ∈ right)
  ∧ (∀ i, i ∈ ids h' merged ↔ i ∈ ids h' left ∨ i ∈ ids h' right).
Proof.
  unfold reduce_messages. destruct (assign_ids uuid4 h right k) as [h' k'].
  split; [intros m; apply merge_elem_of | intros i; apply merge_ids].
Qed.

(** ** [reduce_messages]: two merges in a row *)

Lemma assign_ids_keeps uuid4 h right k r :
  truthy (id_of h r) = true →
  (assign_ids uuid4 h right k).1 !!! r = h !!! r.
Proof.
  intros Hr. pose proof (assign_ids_effect uuid4 h right k r) as Heffect.
  destruct (assign_ids uuid4 h right k) as [h' k']. simpl.
  destruct Heffect as [_ [Hsame|(_ & Hno & _)]]; [done | congruence].
Qed.

Lemma assign_ids_gives_ids uuid4 h right k r :
  (∀ n, uuid4 n ≠ "") →
  r ∈ right → truthy (id_of (assign_ids uuid4 h right k).1 r) = true.
Proof.
  intros Htruthy. revert h k.
  induction right as [|r0 right IH]; intros h k Hr.
  { by apply elem_of_nil in Hr. }
  simpl. apply elem_of_cons in Hr as [->|Hr].
  - destruct (truthy (id_of h r0)) eqn:Hr0.
    + unfold id_of. by rewrite assign_ids_keeps.
    + unfold id_of. rewrite assign_ids_keeps.
      * rewrite lookup_total_insert_eq. by apply truthy_set_id.
      * unfold id_of. rewrite lookup_total_insert_eq. by apply truthy_set_id.
  - destruct (truthy (id_of h r0)); by apply IH.
Qed.

Lemma find_index_ext h1 h2 i l :
  (∀ r, r ∈ l → id_of h1 r = id_of h2 r) →
  find_index h1 i l = find_index h2 i l.
Proof.
  induction l as [|e l IH]; intros Hagree; [done|].
  simpl. rewrite (Hagree e) by left. rewrite IH; [done|].
  intros r Hr. apply Hagree. by right.
Qed.

Lemma merge_message_elem_of h merged m x :
  x ∈ merge_message h merged m → x ∈ merged ∨ x = m.
Proof.
  intros Hx. destruct (merge_elem_of h merged [m] x Hx) as [?|Hm];
    [by left|].
  right. by apply list_elem_of_singleton in Hm.
Qed.

(** The second loop looks at the message objects through their ids
    only. *)
Lemma merge_ext h1 h2 left right :
  (∀ r, r ∈ left ++ right → id_of h1 r = id_of h2 r) →
  foldl (merge_message h1) left right = foldl (merge_message h2) left right.
Proof.
  revert left. induction right as [|m right IH]; intros left Hagree; [done|].
  simpl.
  assert (merge_message h1 left m = merge_message h2 left m) as Hstep.
  { unfold merge_message. rewrite (Hagree m).
    - rewrite (find_index_ext h1 h2); [done|].
      intros r Hr. apply Hagree, elem_of_app. by left.
    - apply elem_of_app. right. left. }
  rewrite Hstep. apply IH. intros r [Hr|Hr]%elem_of_app.
  - apply Hagree, elem_of_app.
    apply merge_message_elem_of in Hr as [Hr| ->]; [by left|].
    right. left.
  - apply Hagree, elem_of_app. right. by right.
Qed.

(** X4.  Merging two batches one after the other is merging their
    concatenation, when every message of the existing history carries an
    id: the same final list, the same ids assigned, the same tokens
    drawn. *)
Theorem reduce_messages_compose uuid4 h left batch1 batch2 k :
  (∀ n, uuid4 n ≠ "") →
  Forall (λ r, truthy (id_of h r) = true) left →
  let '(h1, merged1, k1) := reduce_messages uuid4 h left batch1 k in
  reduce_messages uuid4 h1 merged1 batch2 k1
  = reduce_messages uuid4 h left (batch1 ++ batch2) k.
Proof.
  intros Htruthy Hleft. unfold reduce_messages. rewrite assign_ids_app.
  pose proof (assign_ids_gives_ids uuid4 h batch1 k) as Hgiven.
  pose proof (assign_ids_keeps uuid4 h batch1 k) as Hkept.
  destruct (assign_ids uuid4 h batch1 k) as [h1 k1]. simpl in *.
  pose proof (assign_ids_keeps uuid4 h1 batch2 k1) as Hkept2.
  destruct (assign_ids uuid4 h1 batch2 k1) as [h2 k2]. simpl in *.
  rewrite foldl_app. do 2 f_equal. f_equal.
  apply merge_ext. intros r [Hr|Hr]%elem_of_app; unfold id_of.
  - rewrite Hkept2; [done|]. unfold id_of. rewrite Hkept.
    + by eapply Forall_forall in Hleft.
    + by eapply Forall_forall in Hleft.
  - rewrite Hkept2; [done|]. by apply Hgiven.
Qed.

(** Existing [hello]; first batch [draft, first], second batch
    [hello again, second]. *)
Lemma reduce_messages_compose_example :
  reduce_messages token
    (<[3 := Message.mk AIMessage "draft" (Some "u")]> demo_objects)
    [0; 3; 1] [4; 2] 1
  = reduce_messages token demo_objects [0] ([3; 1] ++ [4; 2]) 0.
Proof.
  apply (reduce_messages_compose token demo_objects [0] [3; 1] [4; 2] 0
           token_truthy).
  by apply Forall_truthy_dec.
Defined.

(** ** The edges of the two topologies *)

Lemma chain_Some p items :
  chain (Some p) items
  = filter (λ e, e.1 ≠ "") (zip (p :: keys items) (keys items)).
Proof.
  revert p. induction items as [|[n c] items IH]; intros p; [done|].
  rewrite chain_cons, IH.
  change (zip (p :: keys ((n, c) :: items)) (keys ((n, c) :: items)))
    with ((p, n) :: zip (n :: keys items) (keys items)).
  destruct (decide (p = "")) as [->|Hp].
  - by rewrite filter_cons_False by (simpl; auto).
  - rewrite filter_cons_True by done. by rewrite truthy_name.
Qed.

Lemma zip_tail_sources (P : string → Prop) (l : list string) :
  Forall P (removelast l) → Forall (λ e, P e.1) (zip l (tail l)).
Proof.
  induction l as [|x l IH]; [constructor|].
  destruct l as [|y l]; [constructor|].
  change (removelast (x :: y :: l)) with (x :: removelast (y :: l)).
  intros [Hx Hrest]%Forall_cons. constructor; [done|]. by apply IH.
Qed.

(** X5.  The sequential topology, for any non-empty list of
    configurations.  The construction fails, with the [ValueError] of
    [compile], exactly when an agent other than the last has the empty
    name: [if prev_node] is false for it, no edge is added out of it, and
    no edge leads to the agent that follows.  When the construction
    succeeds there is a plain edge from each agent to the next one and
    no other plain edge, and the only conditional edge stands on the
    last agent and leads to the first agent or to [END]. *)
Theorem sequential_graph_edges c cs path :
  match MultiAgentWorkflow_init (c :: cs) "sequential" path with
  | Returns w =>
      ("" ∉ removelast (keys (agents w)))
      ∧ edges (graph w) = zip (keys (agents w)) (tail (keys (agents w)))
      ∧ ∃ last_name,
          last (keys (agents w)) = Some last_name
          ∧ conditional_edges (graph w)
            = [(last_name,
                (MultiAgentWorkflow_should_continue, Node (name c), END))]
  | Raises e =>
      e = "ValueError" ∧ "" ∈ removelast (keys (agents_dict (c :: cs)))
  end.
Proof.
  destruct (agents_dict_head c cs) as (c' & d & Hd).
  rewrite (init_sequential c cs path _ _ _ Hd). cbn zeta. rewrite Hd.
  case_decide as Hempty; [done|].
  cbn [agents graph edges conditional_edges compiled sequential_wiring].
  split_and!; [done| |].
  - rewrite chain_cons. cbn [truthy app]. rewrite chain_Some.
    apply (filter_all (λ e : string * string, e.1 ≠ "")
             (zip (keys ((name c, c') :: d))
                  (tail (keys ((name c, c') :: d))))).
    apply (zip_tail_sources (λ x, x ≠ "") (keys ((name c, c') :: d))).
    apply Forall_forall. by intros x Hx ->.
  - exists (default (name c) (last (keys d))). split; [|done].
    change (keys ((name c, c') :: d)) with (name c :: keys d).
    rewrite last_cons. by destruct (last (keys d)).
Qed.

(** X6.  The broadcast topology, for any non-empty list of
    configurations: there is a plain edge from [a] to [b] exactly when
    [a] and [b] are the names of two different agents; no agent has an
    edge onto itself, and no conditional edge (hence no continuation
    predicate and no way to [END]) is added. *)
Theorem broadcast_graph_edges c cs path :
  ∃ w,
    MultiAgentWorkflow_init (c :: cs) "broadcast" path = Returns w
    ∧ (∀ a b, (a, b) ∈ edges (graph w)
              ↔ a ∈ keys (agents w) ∧ b ∈ keys (agents w) ∧ a ≠ b)
    ∧ conditional_edges (graph w) = [].
Proof.
  destruct (agents_dict_head c cs) as (c' & d & Hd).
  rewrite (init_broadcast c cs path _ _ _ Hd). cbn zeta.
  eexists. split; [reflexivity|].
  split; [|done]. intros a b.
  cbn [edges graph agents compiled broadcast_wiring].
  set (names := keys ((name c, c') :: d)).
  rewrite list_elem_of_bind. split.
  - intros (a' & Hab & Ha). apply list_elem_of_fmap in Hab as (b' & [= -> ->] & Hb).
    apply list_elem_of_filter in Hb as [Hne Hb]. done.
  - intros (Ha & Hb & Hne). exists a. split; [|done].
    apply list_elem_of_fmap. exists b. split; [done|].
    apply list_elem_of_filter. split; [by intros ->|done].
Qed.

(** ** The run of a single agent *)

Section single_agent.
Context (uuid4 : nat → string).
Context (llm_invoke : AgentConfig → list Message.t → Message.t).

(** The one node of the graph of a single agent runs until the history
    has reached [N]. *)
Lemma single_agent_loop cfg N m :
  ∀ σ state,
    default (PyInt 10) (metadata state !! "max_turns") = PyInt N →
    let len := length (lists σ !!! messages state) in
    Z.to_nat (N - Z.of_nat len) ≤ m →
    ∃ j σ' state',
      steps uuid4 llm_invoke j (SingleAgent_build_graph cfg)
            (Running "process" σ state)
      = Returns (Halted σ' state')
      ∧ length (lists σ' !!! messages state') = max (S len) (Z.to_nat N).
Proof.
  induction m as [|m IH]; intros σ state Hmax len Hm.
  - destruct (node_step uuid4 llm_invoke cfg σ state) as [σ1 state1] eqn:Hstep.
    destruct (node_step_length _ _ _ _ _ _ _ Hstep) as [Hlen Hmeta].
    exists 1, σ1, state1. split; [|fold len in Hlen; lia].
    simpl. unfold step. simpl. rewrite Hstep. unfold route. simpl.
    unfold SingleAgent_should_continue. rewrite Hmeta, Hmax, Hlen. simpl.
    rewrite bool_decide_false; [done|]. fold len. lia.
  - destruct (node_step uuid4 llm_invoke cfg σ state) as [σ1 state1] eqn:Hstep.
    destruct (node_step_length _ _ _ _ _ _ _ Hstep) as [Hlen Hmeta].
    fold len in Hlen.
    assert (steps uuid4 llm_invoke 1 (SingleAgent_build_graph cfg)
              (Running "process" σ state)
            = Returns (if bool_decide (Z.of_nat (S len) < N)%Z
                       then Running "process" σ1 state1
                       else Halted σ1 state1)) as Hone.
    { simpl. unfold step. simpl. rewrite Hstep. unfold route. simpl.
      unfold SingleAgent_should_continue. rewrite Hmeta, Hmax, Hlen. simpl.
      by destruct (bool_decide _). }
    destruct (decide (Z.of_nat (S len) < N)%Z) as [Hlt|Hge].
    + rewrite bool_decide_true in Hone by done.
      destruct (IH σ1 state1) as (j & σ' & state' & Hj & Hlen').
      { by rewrite Hmeta. }
      { rewrite Hlen. lia. }
      exists (1 + j), σ', state'. split.
      * by rewrite steps_add, Hone, bind_Returns.
      * rewrite Hlen', Hlen. lia.
    + rewrite bool_decide_false in Hone by done.
      exists 1, σ1, state1. split; [done | lia].
Qed.
End single_agent.

(** X7.  A single agent asked one question
    ([agent.graph.invoke({"messages": [HumanMessage(question)],
    "metadata": ...})]) with [max_turns = N] (10 when the key is absent)
    answers at least once and then goes on until the history holds [N]
    messages: for every large enough recursion limit the run returns a
    history of [max(2, N)] messages, whatever the language model
    answers. *)
Theorem single_agent_run_length
    uuid4 llm_invoke system_message model question meta N σ :
  default (PyInt 10) (default ∅ meta !! "max_turns") = PyInt N →
  ∃ limit0, ∀ limit, limit0 ≤ limit →
    ∃ σ' state',
      (let '(σ1, input) := initial_state question meta σ in
       invoke uuid4 llm_invoke limit
              (agent_graph (create_single_agent system_message model))
              input σ1)
      = Returns (Halted σ' state')
      ∧ length (history σ' state') = max 2 (Z.to_nat N).
Proof.
  intros Hmax.
  set (cfg := {| name := "main_agent"; role := EXECUTOR;
                 system_message := system_message; model := model |}).
  set (w := {| agents := []; communication_pattern := ""; checkpointer := "";
               graph := SingleAgent_build_graph cfg |}).
  destruct (run_seed_spec uuid4 w "process" question meta σ eq_refl)
    as (σ0 & state0 & Hseed & Hlen0 & Hmeta0).
  destruct (single_agent_loop uuid4 llm_invoke cfg N (Z.to_nat N) σ0 state0)
    as (j & σ' & state' & Hj & Hlen).
  { by rewrite Hmeta0. }
  { lia. }
  exists (S j). intros limit Hlimit. exists σ', state'. split.
  - change ((c ← run_seed uuid4 w question meta σ;
             walk uuid4 llm_invoke limit (graph w) c)
            = Returns (Halted σ' state')).
    rewrite Hseed, bind_Returns.
    apply (walk_steps uuid4 llm_invoke j _ _ _ _ _ Hj). lia.
  - unfold history, view. rewrite length_fmap, Hlen, Hlen0. done.
Qed.

(** The research assistant's call: [max_turns = 5]. *)
Lemma single_agent_run_length_example :
  ∃ limit0, ∀ limit, limit0 ≤ limit →
    ∃ σ' state',
      (let '(σ1, input) := initial_state "question" (max_turns 5) empty_store in
       invoke token echo limit
              (agent_graph (create_single_agent "instructions" "gpt-3.5-turbo"))
              input σ1)
      = Returns (Halted σ' state')
      ∧ length (history σ' state') = max 2 (Z.to_nat 5).
Proof.
  apply (single_agent_run_length token echo "instructions" "gpt-3.5-turbo"
           "question" (max_turns 5) 5 empty_store).
  reflexivity.
Defined.

(** ** The dictionary of agents *)

(** X8.  Configurations that share a name are collapsed by
    [{cfg.name: SingleAgent(cfg) for cfg in agents}]: the workflow has one
    agent per distinct name, standing where the name first occurs in the
    list, and it is built from the last configuration that carries the
    name. *)
Theorem agents_dict_duplicates cs :
  keys (agents_dict cs) = reverse (remove_dups (reverse (name <$> cs)))
  ∧ ∀ n, dict_get (agents_dict cs) n = last (filter (λ c, name c = n) cs).
Proof.
  split.
  - induction cs as [|c cs IH] using rev_ind; [done|].
    unfold agents_dict in *. rewrite foldl_app. simpl foldl.
    rewrite keys_dict_set, IH, fmap_app, reverse_app. simpl.
    destruct (decide_rel elem_of (name c) (reverse (name <$> cs)))
      as [Hin|Hnin].
    + by rewrite decide_True
        by (by rewrite elem_of_reverse, elem_of_remove_dups).
    + rewrite decide_False
        by (by rewrite elem_of_reverse, elem_of_remove_dups).
      by rewrite reverse_cons.
  - intros n. unfold agents_dict. rewrite agents_dict_fold_get.
    by destruct (last _).
Qed.

(** ** The code analyzer of the review example *)

Lemma AST_ind_children (P : AST → Prop) :
  (∀ c cs, Forall P cs → P (ast_node c cs)) → ∀ t, P t.
Proof.
  intros Hnode. fix IH 1. intros [c cs]. apply Hnode.
  induction cs as [|t cs IHcs]; constructor; [apply IH | exact IHcs].
Qed.

Lemma generic_visit_cons t cs a :
  generic_visit visit (t :: cs) a = generic_visit visit cs (visit t a).
Proof. done. Qed.

Lemma generic_visit_summary cs :
  Forall (λ t, ∀ a, visit_summary t a (visit t a)) cs →
  ∀ a, let a' := generic_visit visit cs a in
  functions (stats a')
  = functions (stats a) + sum_list (count_nodes is_function <$> cs)
  ∧ classes (stats a')
    = classes (stats a) + sum_list (count_nodes is_class <$> cs)
  ∧ lines (stats a') = lines (stats a)
  ∧ complexity (stats a) + sum_list (count_nodes is_function <$> cs)
    ≤ complexity (stats a')
  ∧ complexity (stats a')
    ≤ complexity (stats a) + sum_list (function_weight <$> cs)
  ∧ current_complexity a'
    ≤ max 1 (current_complexity a) + sum_list (count_nodes is_branch <$> cs)
  ∧ (1 ≤ current_complexity a → 1 ≤ current_complexity a').
Proof.
  induction 1 as [|t cs Ht _ IH]; intros a; [simpl; lia|].
  cbn zeta. rewrite generic_visit_cons.
  specialize (IH (visit t a)). cbn zeta in IH.
  destruct (Ht a) as (Hf & Hc & Hl & Hlo & Hhi & Hcur & Hpos).
  destruct IH as (Hf' & Hc' & Hl' & Hlo' & Hhi' & Hcur' & Hpos').
  rewrite !fmap_cons. simpl sum_list. split_and!; lia.
Qed.

Lemma visit_summary_holds t : ∀ a, visit_summary t a (visit t a).
Proof.
  induction t as [c cs IH] using AST_ind_children. intros a.
  pose proof (generic_visit_summary cs IH) as Hcs.
  unfold visit_summary.
  destruct c; cbn [visit count_nodes function_weight is_function is_class
                   is_branch];
    unfold visit_FunctionDef, visit_ClassDef, visit_branch;
    match goal with
    | |- context [generic_visit visit cs ?b] =>
        specialize (Hcs b); cbn zeta in Hcs; simpl in Hcs |- *
    end;
    destruct Hcs as (Hf & Hc & Hl & Hlo & Hhi & Hcur & Hpos);
    split_and!; lia.
Qed.

(** X9.  Visiting a tree adds to ['functions'] the number of its
    [FunctionDef] nodes and to ['classes'] the number of its [ClassDef]
    nodes, wherever they stand in the tree, and never changes
    ['lines']. *)
Theorem visit_counts t a :
  functions (stats (visit t a))
  = functions (stats a) + count_nodes is_function t
  ∧ classes (stats (visit t a)) = classes (stats a) + count_nodes is_class t
  ∧ lines (stats (visit t a)) = lines (stats a).
Proof.
  destruct (visit_summary_holds t a) as (Hf & Hc & Hl & _). done.
Qed.

(** X10.  Every function definition adds at least one to ['complexity']
    and at most one plus the number of [if], [for] and [while] nodes
    below it; nothing else adds to it. *)
Theorem visit_complexity_bounds t a :
  complexity (stats a) + count_nodes is_function t
  ≤ complexity (stats (visit t a))
  ∧ complexity (stats (visit t a))
    ≤ complexity (stats a) + function_weight t.
Proof.
  destruct (visit_summary_holds t a) as (_ & _ & _ & Hlo & Hhi & _). done.
Qed.

(** Below no function definition the total is left alone and the running
    count goes up by one for each branching node. *)
Lemma generic_visit_function_free cs :
  Forall (λ t, count_nodes is_function t = 0 → ∀ a,
            complexity (stats (visit t a)) = complexity (stats a)
            ∧ current_complexity (visit t a)
              = current_complexity a + count_nodes is_branch t
            ∧ function_weight t = 0) cs →
  sum_list (count_nodes is_function <$> cs) = 0 →
  ∀ a, complexity (stats (generic_visit visit cs a)) = complexity (stats a)
       ∧ current_complexity (generic_visit visit cs a)
         = current_complexity a + sum_list (count_nodes is_branch <$> cs)
       ∧ sum_list (function_weight <$> cs) = 0.
Proof.
  induction 1 as [|t cs Ht _ IH]; intros Hsum a; [simpl; lia|].
  rewrite fmap_cons in Hsum. simpl in Hsum.
  rewrite generic_visit_cons, !fmap_cons. simpl sum_list.
  destruct (Ht ltac:(lia) a) as (Hc & Hcur & Hw).
  destruct (IH ltac:(lia) (visit t a)) as (Hc' & Hcur' & Hw').
  split_and!; lia.
Qed.

Lemma visit_function_free t :
  count_nodes is_function t = 0 → ∀ a,
    complexity (stats (visit t a)) = complexity (stats a)
    ∧ current_complexity (visit t a)
      = current_complexity a + count_nodes is_branch t
    ∧ function_weight t = 0.
Proof.
  induction t as [c cs IH] using AST_ind_children. intros Hfree a.
  pose proof (generic_visit_function_free cs IH) as Hcs.
  destruct c; cbn [count_nodes is_function] in Hfree; [lia|..];
    cbn [visit count_nodes function_weight is_function is_branch];
    unfold visit_ClassDef, visit_branch;
    match goal with
    | |- context [generic_visit visit cs ?b] =>
        destruct (Hcs ltac:(lia) b) as (Hc & Hcur & Hw)
    end;
    simpl in Hc, Hcur |- *; split_and!; lia.
Qed.

Lemma children_function_free cs :
  forallb (λ child, bool_decide (count_nodes is_function child = 0)) cs
  = true →
  sum_list (count_nodes is_function <$> cs) = 0
  ∧ Forall (λ t, count_nodes is_function t = 0) cs.
Proof.
  induction cs as [|t cs IH]; [done|].
  cbn [forallb]. rewrite andb_true_iff, bool_decide_eq_true.
  intros [Ht Hcs]. destruct (IH Hcs) as [Hsum Hall].
  rewrite fmap_cons. simpl. split; [lia | by constructor].
Qed.

Lemma generic_visit_flat cs :
  Forall (λ t, flat t = true → ∀ a,
            complexity (stats (visit t a))
            = complexity (stats a) + function_weight t) cs →
  forallb flat cs = true →
  ∀ a, complexity (stats (generic_visit visit cs a))
       = complexity (stats a) + sum_list (function_weight <$> cs).
Proof.
  induction 1 as [|t cs Ht _ IH]; intros Hflat a; [simpl; lia|].
  cbn [forallb] in Hflat. apply andb_true_iff in Hflat as [Hflat_t Hflat_cs].
  rewrite generic_visit_cons, fmap_cons. simpl sum_list.
  rewrite (IH Hflat_cs), (Ht Hflat_t). lia.
Qed.

(** X11.  In a tree where no function definition stands inside another
    one, ['complexity'] grows by exactly one per function plus one per
    [if], [for] or [while] node inside a function; branching nodes
    outside every function count for nothing. *)
Theorem visit_complexity_flat t a :
  flat t = true →
  complexity (stats (visit t a)) = complexity (stats a) + function_weight t.
Proof.
  intros Hflat. revert Hflat a.
  induction t as [c cs IH] using AST_ind_children.
  intros Hflat a. cbn [flat] in Hflat.
  apply andb_true_iff in Hflat as [Hfree Hflat].
  pose proof (generic_visit_flat cs IH Hflat) as Hcs.
  destruct c; cbn [visit function_weight is_function];
    unfold visit_FunctionDef, visit_ClassDef, visit_branch;
    try (rewrite Hcs; simpl; lia).
  cbn [is_function] in Hfree.
  destruct (children_function_free cs Hfree) as [Hsum Hall].
  match goal with
  | |- context [generic_visit visit cs ?b] =>
      destruct (generic_visit_function_free cs
                  (Forall_impl _ _ _ Hall
                     (λ t _ _, visit_function_free t ltac:(assumption)))
                  Hsum b) as (Hc & Hcur & Hw)
  end.
  simpl in Hc, Hcur |- *. lia.
Qed.

Lemma visit_complexity_flat_example :
  complexity
    (stats (visit (ast_node Other
                     [ast_node If [];
                      ast_node FunctionDef [ast_node For [ast_node If []]];
                      ast_node ClassDef [ast_node FunctionDef []]])
                  CodeAnalyzer_init))
  = complexity (stats CodeAnalyzer_init)
    + function_weight
        (ast_node Other
           [ast_node If [];
            ast_node FunctionDef [ast_node For [ast_node If []]];
            ast_node ClassDef [ast_node FunctionDef []]]).
Proof.
  apply (visit_complexity_flat
           (ast_node Other
              [ast_node If [];
               ast_node FunctionDef [ast_node For [ast_node If []]];
               ast_node ClassDef [ast_node FunctionDef []]])
           CodeAnalyzer_init).
  reflexivity.
Defined.

Lemma generic_visit_free cs a :
  Forall (λ t, count_nodes is_function t = 0) cs →
  complexity (stats (generic_visit visit cs a)) = complexity (stats a)
  ∧ current_complexity (generic_visit visit cs a)
    = current_complexity a + sum_list (count_nodes is_branch <$> cs).
Proof.
  intros Hall.
  assert (sum_list (count_nodes is_function <$> cs) = 0) as Hsum.
  { induction Hall as [|t cs Ht _ IH]; [done|].
    rewrite fmap_cons. simpl. lia. }
  destruct (generic_visit_function_free cs
              (Forall_impl _ _ _ Hall
                 (λ t _ _, visit_function_free t ltac:(assumption)))
              Hsum a) as (Hc & Hcur & _).
  done.
Qed.

Lemma generic_visit_app cs1 cs2 a :
  generic_visit visit (cs1 ++ cs2) a
  = generic_visit visit cs2 (generic_visit visit cs1 a).
Proof. unfold generic_visit. apply foldl_app. Qed.

(** A function definition with no function inside adds one plus the
    number of its branching nodes, and leaves that number in the running
    count. *)
Lemma visit_function_node_free cs a :
  Forall (λ t, count_nodes is_function t = 0) cs →
  complexity (stats (visit (ast_node FunctionDef cs) a))
  = complexity (stats a) + (1 + sum_list (count_nodes is_branch <$> cs))
  ∧ current_complexity (visit (ast_node FunctionDef cs) a)
    = 1 + sum_list (count_nodes is_branch <$> cs).
Proof.
  intros Hfree. cbn [visit]. unfold visit_FunctionDef.
  match goal with
  | |- context [generic_visit visit cs ?b] =>
      destruct (generic_visit_free cs b Hfree) as [Hc Hcur]
  end.
  simpl in Hc, Hcur |- *. lia.
Qed.

(** X12.  The running count is shared between a function and the
    functions defined inside it.  When the last statement of a function
    is a nested function definition, the outer function adds the nested
    function's count a second time, and the branching nodes that precede
    the nested definition are counted for neither. *)
Theorem visit_nested_function pre inner a :
  Forall (λ t, count_nodes is_function t = 0) pre →
  Forall (λ t, count_nodes is_function t = 0) inner →
  complexity
    (stats (visit (ast_node FunctionDef
                     (pre ++ [ast_node FunctionDef inner])) a))
  = complexity (stats a)
    + 2 * (1 + sum_list (count_nodes is_branch <$> inner)).
Proof.
  intros Hpre Hinner.
  change (visit (ast_node FunctionDef (pre ++ [ast_node FunctionDef inner])) a)
    with (visit_FunctionDef
            (generic_visit visit (pre ++ [ast_node FunctionDef inner])) a).
  unfold visit_FunctionDef at 1. cbn [stats complexity].
  rewrite !generic_visit_app.
  match goal with
  | |- context [generic_visit visit pre ?b] =>
      destruct (generic_visit_free pre b Hpre) as [Hc _];
      cbn [stats complexity] in Hc;
      generalize dependent (generic_visit visit pre b)
  end.
  intros a1 Hc.
  change (generic_visit visit [ast_node FunctionDef inner] a1)
    with (visit (ast_node FunctionDef inner) a1).
  destruct (visit_function_node_free inner a1 Hinner) as [Hc' Hcur'].
  rewrite Hc', Hcur', Hc. lia.
Qed.

Lemma visit_nested_function_example :
  complexity
    (stats (visit (ast_node FunctionDef
                     ([ast_node If []; ast_node For [ast_node If []]]
                      ++ [ast_node FunctionDef [ast_node While []]]))
                  CodeAnalyzer_init))
  = complexity (stats CodeAnalyzer_init)
    + 2 * (1 + sum_list (count_nodes is_branch <$> [ast_node While []])).
Proof.
  apply (visit_nested_function
           [ast_node If []; ast_node For [ast_node If []]]
           [ast_node While []] CodeAnalyzer_init).
  - repeat constructor.
  - repeat constructor.
Defined.


(** ** The writing prompts *)

(** X14.  [create_writing_prompt] never fails, and it falls back on the
    general prompt for every argument other than the four genre names
    spelled exactly: [None], "general", an unknown genre or a genre name
    in another case all give the general prompt, and no genre name
    does. *)
Theorem create_writing_prompt_fallback genre :
  ∃ prompt, create_writing_prompt genre = Returns prompt
    ∧ (create_writing_prompt genre = create_writing_prompt None
       ↔ genre ∉ Some <$> ["fantasy"; "scifi"; "mystery"; "romance"]).
Proof.
  assert (getitem prompts "general"
          = Returns (default "" (dict_get prompts "general"))) as Hget
    by reflexivity.
  unfold create_writing_prompt. rewrite Hget, !bind_Returns.
  eexists. split; [reflexivity|].
  destruct genre as [g|].
  2: { split; [|done]. intros _ Hin.
       apply list_elem_of_fmap in Hin as (x & Hx & _). discriminate Hx. }
  change (Some g ≫= dict_get prompts) with (dict_get prompts g).
  change (None ≫= dict_get prompts) with (@None string).
  assert (∀ x, x ∈ ["fantasy"; "scifi"; "mystery"; "romance"] →
               Some x ∈ Some <$> ["fantasy"; "scifi"; "mystery"; "romance"])
    as Hnamed by (intros x; apply list_elem_of_fmap_2).
  destruct (decide (g = "fantasy")) as [->|Hfantasy].
  { split; [intros H; vm_compute in H; discriminate H|].
    intros H. exfalso. apply H, Hnamed. set_solver. }
  destruct (decide (g = "scifi")) as [->|Hscifi].
  { split; [intros H; vm_compute in H; discriminate H|].
    intros H. exfalso. apply H, Hnamed. set_solver. }
  destruct (decide (g = "mystery")) as [->|Hmystery].
  { split; [intros H; vm_compute in H; discriminate H|].
    intros H. exfalso. apply H, Hnamed. set_solver. }
  destruct (decide (g = "romance")) as [->|Hromance].
  { split; [intros H; vm_compute in H; discriminate H|].
    intros H. exfalso. apply H, Hnamed. set_solver. }
  split; [intros _ | intros _].
  - intros Hin. apply list_elem_of_fmap in Hin as (x & [= <-] & Hx).
    rewrite !elem_of_cons, elem_of_nil in Hx.
    destruct Hx as [->|[->|[->|[->|[]]]]]; congruence.
  - unfold prompts. cbn [dict_get].
    rewrite (decide_False (P := "fantasy" = g)) by congruence.
    rewrite (decide_False (P := "scifi" = g)) by congruence.
    rewrite (decide_False (P := "mystery" = g)) by congruence.
    rewrite (decide_False (P := "romance" = g)) by congruence.
    by destruct (decide ("general" = g)).
Qed.

(** ** The tools of the research assistant *)

Lemma format_result_spec r :
  match format_result r with
  | inl _ => complete r = true
  | inr e => complete r = false
             ∧ ∃ key, key ∈ ["title"; "body"; "link"] ∧ e = KeyError key
  end.
Proof.
  unfold format_result, result_item, complete. cbn [forallb].
  destruct (dict_get r "title") as [title|].
  2: { split; [done|]. exists "title". split; [set_solver | done]. }
  destruct (dict_get r "body") as [body|].
  2: { split; [done|]. exists "body". split; [set_solver | done]. }
  destruct (dict_get r "link") as [link|]; [done|].
  split; [done|]. exists "link". split; [set_solver | done].
Qed.

Lemma format_results_spec results :
  match format_results results with
  | inl formatted =>
      forallb complete results = true ∧ length formatted = length results
  | inr e => forallb complete results = false
             ∧ ∃ key, key ∈ ["title"; "body"; "link"] ∧ e = KeyError key
  end.
Proof.
  induction results as [|r rest IH]; [done|].
  cbn [format_results forallb].
  pose proof (format_result_spec r) as Hr.
  destruct (format_result r) as [line|e].
  - rewrite Hr. destruct (format_results rest) as [formatted|e]; [|done].
    destruct IH as [-> Hlen]. split; [done|].
    cbn [length]. by rewrite Hlen.
  - destruct Hr as [-> Hkey]. done.
Qed.



Lemma str_len_app s1 s2 : str_len (s1 +:+ s2) = str_len s1 + str_len s2.
Proof. induction s1 as [|b s1 IH]; simpl; [done | rewrite IH; lia]. Qed.

Lemma str_len_take n s : str_len (str_take n s) = min n (str_len s).
Proof.
  revert n. induction s as [|b s IH]; intros n; simpl; [lia|].
  destruct (is_continuation b) eqn:Hb; simpl; rewrite ?Hb.
  - by rewrite IH.
  - destruct n as [|n]; simpl; rewrite ?Hb, ?IH; lia.
Qed.

(** The first [n] characters of a text of [n] characters that is
    followed by a text starting with a whole character. *)
Lemma str_take_app s b t :
  is_continuation b = false →
  str_take (str_len s) (s +:+ String b t) = s.
Proof.
  intros Hb. induction s as [|a s IH]; simpl.
  - by rewrite Hb.
  - destruct (is_continuation a); simpl; by rewrite IH.
Qed.

(** X16.  The text that [scrape_webpage] returns for a page that was
    retrieved has at most 1003 characters: it is the text of the page's
    paragraphs when that has at most 1000 characters, and otherwise its
    first 1000 characters followed by three dots.  In both cases it
    agrees with the page on the first 1000 characters.  Characters are
    counted as [len] counts them, whatever the number of bytes they are
    encoded in. *)
Theorem scrape_webpage_truncates requests_get paragraphs url resp ps :
  requests_get url = inl resp →
  status_code resp = 200%Z →
  paragraphs (text resp) = inl ps →
  ∃ s, scrape_webpage requests_get paragraphs url = Returns s
    ∧ str_len s
      = (if decide (1000 < str_len (String.concat " " ps))
         then 1003 else str_len (String.concat " " ps))
    ∧ str_take 1000 s = str_take 1000 (String.concat " " ps).
Proof.
  intros Hget Hstatus Hps. unfold scrape_webpage.
  rewrite Hget. rewrite decide_True by done. rewrite Hps.
  generalize (String.concat " " ps). intros page.
  eexists. split; [reflexivity|].
  destruct (decide (1000 < str_len page)) as [Hlong|Hshort]; [|done].
  split.
  - rewrite str_len_app, str_len_take.
    change (str_len "...") with 3. lia.
  - pose proof (str_take_app (str_take 1000 page) "."%char ".." eq_refl)
      as Happ.
    rewrite str_len_take in Happ.
    replace (min 1000 (str_len page)) with 1000 in Happ by lia.
    exact Happ.
Qed.

(** A page of 1001 two-byte characters is cut after the thousandth. *)
Lemma scrape_webpage_truncates_example :
  ∃ s,
    scrape_webpage
      (λ _, inl {| status_code := 200; text := "<p>...</p>" |})
      (λ _, inl [String.concat "" (replicate 1001 "é")])
      "https://example.org"
    = Returns s
    ∧ str_len s
      = (if decide (1000 < str_len (String.concat " "
                                      [String.concat "" (replicate 1001 "é")]))
         then 1003
         else str_len (String.concat " "
                         [String.concat "" (replicate 1001 "é")]))
    ∧ str_take 1000 s
      = str_take 1000 (String.concat " "
                         [String.concat "" (replicate 1001 "é")]).
Proof.
  apply (scrape_webpage_truncates
           (λ _, inl {| status_code := 200; text := "<p>...</p>" |})
           (λ _, inl [String.concat "" (replicate 1001 "é")])
           "https://example.org"
           {| status_code := 200; text := "<p>...</p>" |}
           [String.concat "" (replicate 1001 "é")]);
    reflexivity.
Defined.

(** ** Runs whose [max_turns] is not a number *)

(** X17.  When the graph of a sequential workflow is executed with a
    string under ["max_turns"], the failure comes late: the agents of
    the first round all answer, no predicate being consulted on the way,
    and [TypeError] is raised when the continuation predicate is
    consulted for the first time, after the step of the last agent. *)
Theorem sequential_run_TypeError
    uuid4 llm_invoke c cs path initial_message meta s σ :
  Forall (λ c, name c ≠ "") (c :: cs) →
  meta !! "max_turns" = Some (PyStr s) →
  ∃ w, create_multi_agent_workflow (c :: cs) "sequential" path = Returns w
    ∧ (c0 ← run_seed uuid4 w initial_message (Some meta) σ;
       steps uuid4 llm_invoke (length (agents w)) (graph w) c0)
      = Raises "TypeError"
    ∧ ∀ j, j < length (agents w) →
        ∃ n σ' state',
          (c0 ← run_seed uuid4 w initial_message (Some meta) σ;
           steps uuid4 llm_invoke j (graph w) c0)
          = Returns (Running n σ' state')
          ∧ length (history σ' state') = 1 + j.
Proof.
  intros Hnames Hmax. unfold create_multi_agent_workflow.
  pose proof (agents_dict_NoDup (c :: cs)) as Hnd.
  pose proof (agents_dict_names (c :: cs) Hnames) as Hnm.
  destruct (agents_dict_head c cs) as (c' & d & Hd).
  rewrite (init_sequential c cs path _ _ _ Hd). cbn zeta.
  rewrite Hd in *. rewrite decide_False.
  2: { intros Hin. rewrite Forall_forall in Hnm.
       pose proof (elem_of_sublist _ _ _ Hin (removelast_sublist _)) as Hin'.
       apply list_elem_of_fmap in Hin' as (item & Hitem & Hin').
       by apply (Hnm item Hin'). }
  eexists. split; [reflexivity|]. cbn [agents graph].
  set (cp := if truthy path then default "" path else ":memory:").
  pose proof (sequential_graph_follows (name c) c' d (Some cp) [] _ Hnd Hnm
                eq_refl) as Hfollows.
  set (g := compiled (sequential_wiring (name c) c' d) (Some cp)) in *.
  set (w := {| agents := (name c, c') :: d; graph := g |}).
  destruct (run_seed_spec uuid4 w (name c) initial_message (Some meta) σ
              eq_refl) as (σ0 & state0 & Hseed & Hlen0 & Hmeta0).
  rewrite Hseed. split.
  - rewrite bind_Returns.
    apply (sequential_segment_TypeError uuid4 llm_invoke g (name c) _ s
             Hfollows (name c) c' d σ0 state0 eq_refl).
    by rewrite Hmeta0.
  - intros j Hj. rewrite bind_Returns.
    destruct (sequential_prefix uuid4 llm_invoke g (name c) _ Hfollows j
                (name c) c' d σ0 state0 eq_refl Hj)
      as (n & σ' & state' & Hsteps & Hlen & _).
    exists n, σ', state'. split; [done|].
    unfold history, view. rewrite length_fmap, Hlen, Hlen0. lia.
Qed.

Lemma sequential_run_TypeError_example :
  ∃ w, create_multi_agent_workflow (agent "A" :: [agent "B"]) "sequential"
                                   None
       = Returns w
    ∧ (c0 ← run_seed token w "start" (Some {[ "max_turns" := PyStr "15" ]})
                     empty_store;
       steps token echo (length (agents w)) (graph w) c0)
      = Raises "TypeError"
    ∧ ∀ j, j < length (agents w) →
        ∃ n σ' state',
          (c0 ← run_seed token w "start"
                         (Some {[ "max_turns" := PyStr "15" ]}) empty_store;
           steps token echo j (graph w) c0)
          = Returns (Running n σ' state')
          ∧ length (history σ' state') = 1 + j.
Proof.
  apply (sequential_run_TypeError token echo (agent "A") [agent "B"] None
           "start" {[ "max_turns" := PyStr "15" ]} "15" empty_store).
  - repeat constructor; discriminate.
  - reflexivity.
Defined.

(** ** [run] and the checkpointer *)


